(** * AnimGenv2: the sprite-sheet animation builder (App.tsx)

    A shallow embedding of the frame resolver ([parseGridFrames],
    [parseSourceViewFrames]), the preview playback callback ([animate])
    and the code generator ([generateCode]) of
    [excalibur-spritesheet-tool/src/App.tsx].

    Conventions of the embedding:
    - a TypeScript [number] that the application only ever fills from
      [parseInt(..) || k], from a literal, or from integer arithmetic on
      such values is a [Z]: the integer the double holds.  Counters,
      indexes, durations and comparisons are exact on them.  Where the
      code adds and multiplies configured numbers, which can be typed
      beyond [2^53], the module [IEEE] has the same code in double
      arithmetic ([Doubles]), and the text of a number ([num]) is the
      one of the double;
    - timestamps ([performance.now()], the argument of a
      [requestAnimationFrame] callback) are taken in integral time units
      and are a [Z] as well: the code only subtracts two of them and
      compares the difference with a duration;
    - React state cells are fields of explicit records, a state setter is
      a record update;
    - reading a property of [undefined] raises a [TypeError]: such code
      returns in the [result] type below. *)

From Stdlib Require Import ZArith List Bool Lia String Ascii.
From Stdlib Require Import Numbers.DecimalString.
From Stdlib Require Numbers.DecimalPos Numbers.DecimalZ.
Import ListNotations.

Open Scope Z_scope.

(** ** Type definitions (App.tsx, lines 4-42) *)

Module Types.

Inductive ParseMode := grid | sourceview.

Record Point := { px : Z; py : Z }.

Record GridConfig := {
  spriteWidth : Z;
  spriteHeight : Z;
  rows : Z;
  columns : Z;
  originOffset : Point;
  margin : Point
}.

Record SourceView := {
  sv_x : Z;
  sv_y : Z;
  sv_width : Z;
  sv_height : Z
}.

Record Frame := {
  index : Z;
  x : Z;
  y : Z;
  width : Z;
  height : Z
}.

Record AnimationFrame := {
  frameIndex : Z;
  duration : Z
}.

Inductive LoopStrategy := Freeze | End | Loop | PingPong.

Record Animation := {
  name : string;
  frames : list AnimationFrame;
  loopStrategy : LoopStrategy
}.

(** The loaded [HTMLImageElement]; the core only ever looks at whether
    there is one, the canvas code at its size. *)
Record Image := { img_width : Z; img_height : Z }.

End Types.
Import Types.

(** ** JavaScript idioms *)

(** [for (let i = 0; i < n; i++) body]: the body runs for
    [i = 0, 1, ..] as long as [i < n], threading the variables it
    assigns. *)
Definition zrange (n : Z) : list Z := map Z.of_nat (seq 0 (Z.to_nat n)).

Definition for_lt {S : Type} (n : Z) (body : Z -> S -> S) (s : S) : S :=
  fold_left (fun acc i => body i acc) (zrange n) s.

(** A computation that may throw a [TypeError] (a property read on
    [undefined]). *)
Inductive result (A : Type) : Type :=
| Ok (a : A)
| TypeError.
Arguments Ok {A} a.
Arguments TypeError {A}.

(** [arr[i]]: [undefined] outside [0 .. arr.length - 1]. *)
Definition js_index {A : Type} (arr : list A) (i : Z) : option A :=
  if i <? 0 then None else nth_error arr (Z.to_nat i).

(** [arr.map((v, i) => f(v, i))], the index counted from [i0]. *)
Fixpoint mapi_from {A B : Type} (f : A -> Z -> B) (i0 : Z) (arr : list A)
  : list B :=
  match arr with
  | [] => []
  | v :: rest => f v i0 :: mapi_from f (i0 + 1) rest
  end.

Definition js_mapi {A B : Type} (f : A -> Z -> B) (arr : list A) : list B :=
  mapi_from f 0 arr.

(** [arr.forEach((v, i) => body)], threading what the body assigns. *)
Fixpoint forEach_from {A S : Type} (body : A -> Z -> S -> S) (i0 : Z)
  (arr : list A) (s : S) : S :=
  match arr with
  | [] => s
  | v :: rest => forEach_from body (i0 + 1) rest (body v i0 s)
  end.

Definition js_forEach {A S : Type} (body : A -> Z -> S -> S)
  (arr : list A) (s : S) : S :=
  forEach_from body 0 arr s.

Definition zlength {A : Type} (arr : list A) : Z :=
  Z.of_nat (List.length arr).

(** [const updated = [...arr]; updated[i] = v] for an index inside the
    array, the only way the application uses it. *)
Fixpoint set_nth {A : Type} (arr : list A) (i : nat) (v : A) : list A :=
  match arr, i with
  | [], _ => []
  | _ :: rest, O => v :: rest
  | a :: rest, S i' => a :: set_nth rest i' v
  end.





(** ** Numbers as IEEE 754 doubles

    A JavaScript [number] is a double.  Every number of the application
    is integral, and as long as the numbers and the intermediate results
    of [+] and [*] stay safe integers (of magnitude at most [2^53 - 1])
    the arithmetic is the exact one of [Z]; beyond, each operation
    returns the double nearest to the exact result.  This module has the
    doubles that integral operands can produce. *)

Module Doubles.

(** [2^53]: every integer up to it is a double. *)
Definition two53 : Z := 9007199254740992.

(** [2^1024]: a result that rounds to it or beyond overflows. *)
Definition overflow : Z := 2 ^ 1024.

(** [Number.isSafeInteger]. *)
Definition safeInteger (z : Z) : Prop := - (two53 - 1) <= z <= two53 - 1.

(** The double nearest to the integer [z], as round-to-nearest with
    ties to the even significand picks it, the exponent left unbounded:
    a significand of 53 bits, so from [2^53] on only the multiples of
    [2^e] remain, [e] being the number of bits beyond the 53rd. *)
Definition roundDouble (z : Z) : Z :=
  if Z.abs z <? two53 then z
  else
    let e := Z.log2 (Z.abs z) - 52 in
    let q := z / 2 ^ e in
    let r := z mod 2 ^ e in
    let half := 2 ^ (e - 1) in
    let q' := if r <? half then q
              else if half <? r then q + 1
              else if Z.even q then q else q + 1 in
    q' * 2 ^ e.

(** The values of integral arithmetic: a finite double that is an
    integer, the two infinities and [NaN].  The sign of a zero is not
    kept: the application neither divides by a number nor prints a
    negative zero apart. *)
Inductive double :=
| Fin (z : Z)
| PosInfinity
| NegInfinity
| NaN.

(** The double an exact integral result is rounded to. *)
Definition ofExact (z : Z) : double :=
  let r := roundDouble z in
  if overflow <=? r then PosInfinity
  else if r <=? - overflow then NegInfinity
  else Fin r.

Definition sign (a : double) : Z :=
  match a with
  | Fin z => Z.sgn z
  | PosInfinity => 1
  | NegInfinity => -1
  | NaN => 0
  end.

(** [a + b]. *)
Definition add (a b : double) : double :=
  match a, b with
  | NaN, _ | _, NaN => NaN
  | Fin x, Fin y => ofExact (x + y)
  | PosInfinity, NegInfinity | NegInfinity, PosInfinity => NaN
  | PosInfinity, _ | _, PosInfinity => PosInfinity
  | NegInfinity, _ | _, NegInfinity => NegInfinity
  end.

(** [a * b]: an infinity times zero is [NaN]. *)
Definition mul (a b : double) : double :=
  match a, b with
  | NaN, _ | _, NaN => NaN
  | Fin x, Fin y => ofExact (x * y)
  | _, _ =>
      match sign a * sign b with
      | Z0 => NaN
      | Zpos _ => PosInfinity
      | Zneg _ => NegInfinity
      end
  end.

End Doubles.

(** ** Frame resolver (App.tsx, lines 114-147) *)

Module FrameResolver.

(** The object pushed by the inner loop body of [parseGridFrames], its
    position in the exact arithmetic of [Z]: what the code computes
    while the configured numbers and the intermediate results are safe
    integers.  [IEEE.gridFrame] below has the doubles the code computes
    for every configuration. *)
Definition gridFrame (gc : GridConfig) (idx row col : Z) : Frame :=
  {| index := idx;
     x := px (originOffset gc) + col * (spriteWidth gc + px (margin gc));
     y := py (originOffset gc) + row * (spriteHeight gc + py (margin gc));
     width := spriteWidth gc;
     height := spriteHeight gc |}.

(** The inner loop (lines 122-131), for one value of [row]; the threaded
    state is [(index, newFrames)]. *)
Definition columnLoop (gc : GridConfig) (row : Z) (st : Z * list Frame)
  : Z * list Frame :=
  for_lt (columns gc)
    (fun col st' =>
       let '(idx, newFrames) := st' in
       (idx + 1, newFrames ++ [gridFrame gc idx row col]))
    st.

(** The two nested loops, from [index = 0] and an empty [newFrames]. *)
Definition gridLoop (gc : GridConfig) : Z * list Frame :=
  for_lt (rows gc) (columnLoop gc) (0, []).

(** [parseGridFrames]: the new value of the [frames] state cell, given
    its old value.  Without an image the function returns before
    [setFrames], so the cell keeps what it held. *)
Definition parseGridFrames (image : option Image) (gc : GridConfig)
  (old : list Frame) : list Frame :=
  match image with
  | None => old
  | Some _ => snd (gridLoop gc)
  end.

(** [parseSourceViewFrames]: always calls [setFrames]. *)
Definition parseSourceViewFrames (sourceViews : list SourceView)
  : list Frame :=
  js_mapi (fun sv i =>
             {| index := i;
                x := sv_x sv;
                y := sv_y sv;
                width := sv_width sv;
                height := sv_height sv |})
          sourceViews.

(** The effect of lines 149-155, dispatching on the parse mode. *)
Definition resolveFrames (parseMode : option ParseMode)
  (image : option Image) (gc : GridConfig) (sourceViews : list SourceView)
  (old : list Frame) : list Frame :=
  match parseMode with
  | Some grid => parseGridFrames image gc old
  | Some sourceview => parseSourceViewFrames sourceViews
  | None => old
  end.

(** Row-major enumeration, used to state what the loops have pushed
    after [k] full rows of [c] columns. *)
Definition rowFrames (gc : GridConfig) (c : nat) (row : Z) : list Frame :=
  map (fun col => gridFrame gc (row * Z.of_nat c + col) row col)
      (zrange (Z.of_nat c)).

Fixpoint rowMajor (gc : GridConfig) (c : nat) (k : nat) : list Frame :=
  match k with
  | O => []
  | S k' => rowMajor gc c k' ++ rowFrames gc c (Z.of_nat k')
  end.

End FrameResolver.

(** ** The grid resolver in double arithmetic (App.tsx, lines 114-136)

    The same loops with the positions computed as the code computes
    them, in doubles.  A field of the [GridConfig] stands for the double
    nearest to it (what [parseInt] returns for that numeral).  The loop
    counters [row], [col] and [index] stay exact: a counter first meets
    a rounded value after [2^53] iterations. *)

Module IEEE.

Import Doubles.

Record Frame := {
  index : Z;
  x : double;
  y : double;
  width : double;
  height : double
}.

(** The object pushed by the inner loop body (lines 123-129). *)
Definition gridFrame (gc : GridConfig) (idx row col : Z) : Frame :=
  {| index := idx;
     x := add (ofExact (px (originOffset gc)))
            (mul (ofExact col)
               (add (ofExact (spriteWidth gc)) (ofExact (px (margin gc)))));
     y := add (ofExact (py (originOffset gc)))
            (mul (ofExact row)
               (add (ofExact (spriteHeight gc)) (ofExact (py (margin gc)))));
     width := ofExact (spriteWidth gc);
     height := ofExact (spriteHeight gc) |}.

(** The inner loop (lines 122-131), for one value of [row]. *)
Definition columnLoop (gc : GridConfig) (row : Z) (st : Z * list Frame)
  : Z * list Frame :=
  for_lt (columns gc)
    (fun col st' =>
       let '(idx, newFrames) := st' in
       (idx + 1, newFrames ++ [gridFrame gc idx row col]))
    st.

(** The two nested loops, from [index = 0] and an empty [newFrames]. *)
Definition gridLoop (gc : GridConfig) : Z * list Frame :=
  for_lt (rows gc) (columnLoop gc) (0, []).

(** [parseGridFrames]: the new value of the [frames] state cell, given
    its old value. *)
Definition parseGridFrames (image : option Image) (gc : GridConfig)
  (old : list Frame) : list Frame :=
  match image with
  | None => old
  | Some _ => snd (gridLoop gc)
  end.

(** Row-major enumeration, used to state what the loops have pushed
    after [k] full rows of [c] columns. *)
Definition rowFrames (gc : GridConfig) (c : nat) (row : Z) : list Frame :=
  map (fun col => gridFrame gc (row * Z.of_nat c + col) row col)
      (zrange (Z.of_nat c)).

Fixpoint rowMajor (gc : GridConfig) (c : nat) (k : nat) : list Frame :=
  match k with
  | O => []
  | S k' => rowMajor gc c k' ++ rowFrames gc c (Z.of_nat k')
  end.

(** A frame of safe integers, as the doubles that hold it. *)
Definition exact (f : Types.Frame) : Frame :=
  {| index := Types.index f;
     x := Fin (Types.x f);
     y := Fin (Types.y f);
     width := Fin (Types.width f);
     height := Fin (Types.height f) |}.

(** The configured numbers and every intermediate result of the
    position arithmetic are safe integers: the sum of size and margin,
    its product with the last column (row) and the position of the last
    column (row), in each direction. *)
Definition exactPositions (gc : GridConfig) : Prop :=
  safeInteger (rows gc) /\ safeInteger (columns gc) /\
  safeInteger (spriteWidth gc) /\ safeInteger (spriteHeight gc) /\
  safeInteger (px (originOffset gc)) /\ safeInteger (py (originOffset gc)) /\
  safeInteger (px (margin gc)) /\ safeInteger (py (margin gc)) /\
  safeInteger (spriteWidth gc + px (margin gc)) /\
  safeInteger (spriteHeight gc + py (margin gc)) /\
  safeInteger ((columns gc - 1) * (spriteWidth gc + px (margin gc))) /\
  safeInteger ((rows gc - 1) * (spriteHeight gc + py (margin gc))) /\
  safeInteger (px (originOffset gc)
               + (columns gc - 1) * (spriteWidth gc + px (margin gc))) /\
  safeInteger (py (originOffset gc)
               + (rows gc - 1) * (spriteHeight gc + py (margin gc))).

End IEEE.

(** ** Animation management (App.tsx, lines 258-305) *)

Module AnimationModel.

(** [addFrameToAnimation], with [updateAnimation] replacing the
    [frames] field: the new step carries [defaultDuration] as it
    stands. *)
Definition addFrameToAnimation (animations : list Animation)
  (defaultDuration : Z) (animIndex frameIndex : Z)
  : result (list Animation) :=
  match js_index animations animIndex with
  | None => TypeError
  | Some anim =>
      let newFrame := {| frameIndex := frameIndex;
                         duration := defaultDuration |} in
      Ok (set_nth animations (Z.to_nat animIndex)
            {| name := name anim;
               frames := frames anim ++ [newFrame];
               loopStrategy := loopStrategy anim |})
  end.

End AnimationModel.

(** ** Preview playback (App.tsx, lines 307-367) *)

Module Playback.

(** The variables the playback effect closes over ([frameIdx],
    [lastTime], [direction]), the two React state cells the callback
    writes ([currentFrameIdx], [isPlaying]), and whether a
    [requestAnimationFrame] callback is pending. *)
Record PlaybackState := {
  frameIdx : Z;
  lastTime : Z;
  direction : Z;
  currentFrameIdx : Z;
  isPlaying : bool;
  scheduled : bool
}.

(** [setCurrentFrameIdx(frameIdx)] followed by
    [requestAnimationFrame(animate)] (lines 354 and 357), after
    [lastTime = currentTime] and the strategy's assignments. *)
Definition commit (s : PlaybackState) (currentTime idx dir : Z)
  : PlaybackState :=
  {| frameIdx := idx;
     lastTime := currentTime;
     direction := dir;
     currentFrameIdx := idx;
     isPlaying := isPlaying s;
     scheduled := true |}.

(** [setIsPlaying(false); return;] (lines 348-349): the local counter
    has been incremented, nothing is committed, nothing is scheduled. *)
Definition stop (s : PlaybackState) (currentTime idx : Z) : PlaybackState :=
  {| frameIdx := idx;
     lastTime := currentTime;
     direction := direction s;
     currentFrameIdx := currentFrameIdx s;
     isPlaying := false;
     scheduled := false |}.

(** The [elapsed < duration] path: only line 357 runs. *)
Definition reschedule (s : PlaybackState) : PlaybackState :=
  {| frameIdx := frameIdx s;
     lastTime := lastTime s;
     direction := direction s;
     currentFrameIdx := currentFrameIdx s;
     isPlaying := isPlaying s;
     scheduled := true |}.

(** The callback [animate] (lines 324-358). [%] is JavaScript's
    truncating remainder. *)
Definition animate (anim : Animation) (currentTime : Z) (s : PlaybackState)
  : result PlaybackState :=
  let elapsed := currentTime - lastTime s in
  match js_index (frames anim) (frameIdx s) with
  | None => TypeError
  | Some currentAnimFrame =>
      if duration currentAnimFrame <=? elapsed then
        let len := zlength (frames anim) in
        match loopStrategy anim with
        | PingPong =>
            let f := frameIdx s + direction s in
            if len <=? f then Ok (commit s currentTime (len - 2) (-1))
            else if f <? 0 then Ok (commit s currentTime 1 1)
            else Ok (commit s currentTime f (direction s))
        | Loop =>
            Ok (commit s currentTime (Z.rem (frameIdx s + 1) len)
                  (direction s))
        | Freeze =>
            let f := frameIdx s + 1 in
            if len <=? f
            then Ok (commit s currentTime (len - 1) (direction s))
            else Ok (commit s currentTime f (direction s))
        | End =>
            let f := frameIdx s + 1 in
            if len <=? f
            then Ok (stop s currentTime f)
            else Ok (commit s currentTime f (direction s))
        end
      else Ok (reschedule s)
  end.

(** The body of the playback effect (lines 308-323 and 360) for a
    selected animation: it runs when one of its dependencies
    [isPlaying], [currentFrameIdx] (line 367) has changed, after the
    clean-up of lines 362-366 cancelled the pending callback. *)
Definition playbackEffect (anim : Animation) (now : Z) (s : PlaybackState)
  : PlaybackState :=
  if negb (isPlaying s) then
    {| frameIdx := frameIdx s; lastTime := lastTime s;
       direction := direction s; currentFrameIdx := currentFrameIdx s;
       isPlaying := isPlaying s; scheduled := false |}
  else if zlength (frames anim) =? 0 then
    {| frameIdx := frameIdx s; lastTime := lastTime s;
       direction := direction s; currentFrameIdx := currentFrameIdx s;
       isPlaying := isPlaying s; scheduled := false |}
  else
    {| frameIdx := currentFrameIdx s; lastTime := now;
       direction := 1; currentFrameIdx := currentFrameIdx s;
       isPlaying := isPlaying s; scheduled := true |}.

(** A display frame: the timestamp handed to the callback, and the time
    [performance.now()] returns if the playback effect runs again after
    it. *)
Record Tick := { currentTime : Z; effectTime : Z }.

(** The dependencies of the playback effect that the callback can
    change (line 367). *)
Definition depsChanged (s s' : PlaybackState) : bool :=
  negb (currentFrameIdx s' =? currentFrameIdx s)
  || negb (Bool.eqb (isPlaying s') (isPlaying s)).

(** One display frame: the browser calls the pending callback, if there
    is one, with the frame's timestamp; React then re-renders and
    re-runs the playback effect, at time [effectTime], when the callback
    changed one of the effect's dependencies.  The preview-drawing
    effect (lines 370-394) writes [currentFrameIdx] only when
    [anim.frames[currentFrameIdx]] is undefined; it is left out, and
    [frameTick] is used below on runs whose committed index stays inside
    the animation. *)
Definition frameTick (anim : Animation) (tk : Tick) (s : PlaybackState)
  : result PlaybackState :=
  if scheduled s then
    match animate anim (currentTime tk) s with
    | TypeError => TypeError
    | Ok s' =>
        if depsChanged s s'
        then Ok (playbackEffect anim (effectTime tk) s')
        else Ok s'
    end
  else Ok s.

(** What the preview shows after a display frame. *)
Definition observe (s : PlaybackState) : Z * bool :=
  (currentFrameIdx s, isPlaying s).

(** The observations made over a stream of display frames; an uncaught
    [TypeError] ends the stream of observations. *)
Fixpoint trace (anim : Animation) (ticks : list Tick) (s : PlaybackState)
  : list (Z * bool) :=
  match ticks with
  | [] => []
  | tk :: rest =>
      match frameTick anim tk s with
      | TypeError => []
      | Ok s' => observe s' :: trace anim rest s'
      end
  end.

Fixpoint run (anim : Animation) (ticks : list Tick) (s : PlaybackState)
  : result PlaybackState :=
  match ticks with
  | [] => Ok s
  | tk :: rest =>
      match frameTick anim tk s with
      | TypeError => TypeError
      | Ok s' => run anim rest s'
      end
  end.

(** The closure right after Play is pressed with the preview at
    [currentFrameIdx = 0]. *)
Definition started (now : Z) : PlaybackState :=
  {| frameIdx := 0; lastTime := now; direction := 1;
     currentFrameIdx := 0; isPlaying := true; scheduled := true |}.

End Playback.

(** ** Code generator (App.tsx, lines 396-469) *)

Module CodeGen.

Open Scope string_scope.

(** The React state cells of [App] (lines 45-70). *)
Record AppState := {
  image : option Image;
  parseMode : option ParseMode;
  gridConfig : GridConfig;
  sourceViews : list SourceView;
  frames : list Frame;
  animations : list Animation;
  selectedAnimation : option Z;
  animationGroupName : string;
  isPlaying : bool;
  currentFrameIdx : Z;
  imagePath : string;
  defaultDuration : Z;
  selectedSourceView : option Z
}.

(** The line feed written [\n] in the template literals. *)
Definition nl : string := String (ascii_of_nat 10) EmptyString.

(** The decimal numeral of an integer: its digits, [-] in front of a
    negative one. *)
Definition decimal (n : Z) : string := NilEmpty.string_of_int (Z.to_int n).

Definition digitCount (x : Z) : Z := Z.of_nat (String.length (decimal x)).

Fixpoint zeros (n : nat) : string :=
  match n with
  | O => ""
  | S n' => String "0" (zeros n')
  end.

(** [Number::toString] of a double [x >= 2^53], step 5: digits [s],
    their number [k] and an exponent [n] with
    [10^(k-1) <= s < 10^k], such that [s * 10^(n-k)] is rounded to [x],
    with [k] as small as possible and, for that [k], [s * 10^(n-k)] as
    close to [x] as possible (the even [s] on a tie).

    [digitsAt x k n] is that [s] for a given [k] and [n], if there is
    one: the nearest candidates are the two multiples of [10^(n-k)]
    around [x]. *)
Definition digitsAt (x k n : Z) : option Z :=
  let m := (n - k)%Z in
  let lo := (x / 10 ^ m)%Z in
  let hi := (lo + 1)%Z in
  let ok (s : Z) :=
    ((0 <=? m) && (10 ^ (k - 1) <=? s) && (s <? 10 ^ k)
     && (Doubles.roundDouble (s * 10 ^ m) =? x))%Z in
  match ok lo, ok hi with
  | true, true =>
      let below := (x - lo * 10 ^ m)%Z in
      let above := (hi * 10 ^ m - x)%Z in
      if (below <? above)%Z then Some lo
      else if (above <? below)%Z then Some hi
      else if Z.even lo then Some lo else Some hi
  | true, false => Some lo
  | false, true => Some hi
  | false, false => None
  end.

(** The search for the least [k], among the given ones in order; [d] is
    the number of digits of [x], and [n] is [d], or [d + 1] when the
    digits round up to a power of ten. *)
Fixpoint shortestFrom (x d : Z) (ks : list Z) : option (Z * Z * Z) :=
  match ks with
  | [] => None
  | k :: rest =>
      match digitsAt x k d, digitsAt x k (d + 1) with
      | Some s, _ => Some (s, k, d)
      | None, Some s => Some (s, k, (d + 1)%Z)
      | None, None => shortestFrom x d rest
      end
  end.

(** Seventeen digits always identify a double. *)
Definition digitCounts : list Z := map (fun i => (i + 1)%Z) (zrange 17).

(** [Number::toString] of a positive integral double: up to [2^53] the
    decimal numeral; beyond, the shortest digits that identify the
    double, followed by zeros while the exponent is at most 21 and in
    exponent notation from [1e21] on.  The search finds digits for
    every double; were it to find none, all the digits are printed. *)
Definition numPos (x : Z) : string :=
  if (x <? Doubles.two53)%Z then decimal x
  else
    match shortestFrom x (digitCount x) digitCounts with
    | None => decimal x
    | Some (s, k, n) =>
        if (n <=? 21)%Z then decimal s ++ zeros (Z.to_nat (n - k))
        else
          match decimal s with
          | EmptyString => EmptyString
          | String c EmptyString => String c "e+" ++ decimal (n - 1)
          | String c rest =>
              String c (String "." rest) ++ "e+" ++ decimal (n - 1)
          end
    end.

(** [`${n}`] for an integral number: the text of the double nearest to
    [n], [-] in front of a negative one.  The numbers are finite, as a
    [Z] is. *)
Definition num (n : Z) : string :=
  let x := Doubles.roundDouble n in
  if (x <? 0)%Z then String "-" (numPos (- x)) else numPos x.


(** Line 418-419. *)
Definition hasSpacing (gc : GridConfig) : bool :=
  (negb (px (originOffset gc) =? 0) || negb (py (originOffset gc) =? 0)
   || negb (px (margin gc) =? 0) || negb (py (margin gc) =? 0))%Z.




(** Lines 408-428: what the grid branch appends to [code]. *)
Definition emitGrid (gc : GridConfig) (code : string) : string :=
  let code := code ++ "// Create spritesheet using grid-based parsing" ++ nl in
  let code := code ++ "const spriteSheet = SpriteSheet.fromImageSource({" ++ nl in
  let code := code ++ "  image: imageSource," ++ nl in
  let code := code ++ "  grid: {" ++ nl in
  let code := code ++ "    rows: " ++ num (rows gc) ++ "," ++ nl in
  let code := code ++ "    columns: " ++ num (columns gc) ++ "," ++ nl in
  let code := code ++ "    spriteWidth: " ++ num (spriteWidth gc) ++ "," ++ nl in
  let code := code ++ "    spriteHeight: " ++ num (spriteHeight gc) ++ nl in
  let code := code ++ "  }" in
  let code :=
    if hasSpacing gc then
      let code := code ++ "," ++ nl ++ "  spacing: {" ++ nl in
      let code := code ++ "    originOffset: { x: " ++ num (px (originOffset gc))
                       ++ ", y: " ++ num (py (originOffset gc)) ++ " }," ++ nl in
      let code := code ++ "    margin: { x: " ++ num (px (margin gc))
                       ++ ", y: " ++ num (py (margin gc)) ++ " }" ++ nl in
      code ++ "  }"
    else code in
  code ++ nl ++ "});" ++ nl ++ nl.

(** Lines 430-439: what the source-view branch appends to [code]. *)
Definition emitSourceViews (svs : list SourceView) (code : string) : string :=
  let code := code ++ "// Create spritesheet using source views (irregular frames)" ++ nl in
  let code := code ++ "const spriteSheet = SpriteSheet.fromImageSourceWithSourceViews({" ++ nl in
  let code := code ++ "  image: imageSource," ++ nl in
  let code := code ++ "  sourceViews: [" ++ nl in
  let code :=
    js_forEach
      (fun sv i code =>
         let code := code ++ "    { x: " ++ num (sv_x sv) ++ ", y: " ++ num (sv_y sv)
                          ++ ", width: " ++ num (sv_width sv)
                          ++ ", height: " ++ num (sv_height sv) ++ " }" in
         code ++ (if (i <? zlength svs - 1)%Z then "," ++ nl else nl))
      svs code in
  let code := code ++ "  ]" ++ nl in
  code ++ "});" ++ nl ++ nl.

(** Lines 446-451. *)
Definition strategyMap (ls : LoopStrategy) : string :=
  match ls with
  | Loop => "Loop"
  | Freeze => "Freeze"
  | End => "End"
  | PingPong => "PingPong"
  end.

(** Lines 445-464: the body of [animations.forEach]. *)
Definition emitAnimation (count : Z) (anim : Animation) (i : Z)
  (code : string) : string :=
  let code := code ++ "  " ++ name anim ++ ": new Animation({" ++ nl in
  let code := code ++ "    frames: [" ++ nl in
  let code :=
    js_forEach
      (fun f fIdx code =>
         let code := code ++ "      { graphic: spriteSheet.sprites["
                          ++ num (frameIndex f) ++ "], duration: "
                          ++ num (duration f) ++ " }" in
         code ++ (if (fIdx <? zlength (Types.frames anim) - 1)%Z
                  then "," ++ nl else nl))
      (Types.frames anim) code in
  let code := code ++ "    ]" in
  let code := code ++ "," ++ nl ++ "    strategy: AnimationStrategy."
                   ++ strategyMap (loopStrategy anim) in
  let code := code ++ nl ++ "  })" in
  code ++ (if (i <? count - 1)%Z then "," ++ nl else nl).

(** Lines 400-405: the text [code] starts with. *)
Definition emitHeader (st : AppState) : string :=
  let code := "import { ImageSource, SpriteSheet, Animation, AnimationStrategy } from 'excalibur';"
              ++ nl ++ nl in
  let code := code ++ "// Load the spritesheet image" ++ nl in
  let code := code ++ "// !!!! THIS IS /public FOLDER IF USING VITE !!!!" ++ nl in
  let code := code ++ "const imageSource = new ImageSource('" ++ imagePath st
                   ++ "');" ++ nl ++ nl in
  let code := code ++ "// Wait for the image to load" ++ nl in
  code ++ "await imageSource.load();" ++ nl ++ nl.

(** Lines 442-466: what the animation definitions append to [code]. *)
Definition emitAnimations (st : AppState) (code : string) : string :=
  let code := code ++ "// Animation definitions" ++ nl in
  let code := code ++ "export const " ++ animationGroupName st ++ " = {" ++ nl in
  let code :=
    js_forEach (emitAnimation (zlength (animations st)))
      (animations st) code in
  code ++ "};" ++ nl.

(** [generateCode] (lines 397-469). *)
Definition generateCode (st : AppState) : string :=
  match image st with
  | None => ""
  | Some _ =>
      if (zlength (frames st) =? 0)%Z then "" else
      let code := emitHeader st in
      let code :=
        match parseMode st with
        | Some grid => emitGrid (gridConfig st) code
        | Some sourceview => emitSourceViews (sourceViews st) code
        | None => code
        end in
      emitAnimations st code
  end.

End CodeGen.

(** ** Concrete inputs used by the examples below *)

Module Samples.

Definition origin : Point := {| px := 0; py := 0 |}.

Definition sheet : Image := {| img_width := 48; img_height := 32 |}.

(** [rows=2, columns=3, spriteWidth=spriteHeight=16], no offset, no
    margin. *)
Definition grid2x3 : GridConfig :=
  {| spriteWidth := 16; spriteHeight := 16; rows := 2; columns := 3;
     originOffset := origin; margin := origin |}.

(** One row, one column, sprite width typed as [0]. *)
Definition gridZeroWidth : GridConfig :=
  {| spriteWidth := 0; spriteHeight := 32; rows := 1; columns := 1;
     originOffset := origin; margin := origin |}.

Definition twoViews : list SourceView :=
  [ {| sv_x := 3; sv_y := 4; sv_width := 10; sv_height := 12 |};
    {| sv_x := 20; sv_y := 0; sv_width := 7; sv_height := 9 |} ].

Definition step (i d : Z) : AnimationFrame :=
  {| frameIndex := i; duration := d |}.

(** Three frames of 150 ms each. *)
Definition freeze3 : Animation :=
  {| name := "Idle"; frames := [step 0 150; step 1 150; step 2 150];
     loopStrategy := Freeze |}.

Definition end3 : Animation :=
  {| name := "Die"; frames := [step 0 150; step 1 150; step 2 150];
     loopStrategy := End |}.

(** A single frame, played back and forth. *)
Definition pingPong1 : Animation :=
  {| name := "Blink"; frames := [step 0 150]; loopStrategy := PingPong |}.

Definition pingPong3 : Animation :=
  {| name := "Sway"; frames := [step 0 150; step 1 150; step 2 150];
     loopStrategy := PingPong |}.

(** Two frames added while the default duration field held [0]. *)
Definition loopZero : Animation :=
  {| name := "Walk"; frames := [step 0 0; step 1 0]; loopStrategy := Loop |}.

(** Display frames every 200 time units, the effect re-running one unit
    after the callback. *)
(** The 2 x 3 grid shifted by an origin offset of one pixel to the
    right. *)
Definition gridShifted : GridConfig :=
  {| spriteWidth := 16; spriteHeight := 16; rows := 2; columns := 3;
     originOffset := {| px := 1; py := 0 |}; margin := origin |}.

(** One row of two sprites whose width is typed as [2^53], with a
    horizontal margin of 1. *)
Definition gridHuge : GridConfig :=
  {| spriteWidth := 9007199254740992; spriteHeight := 16;
     rows := 1; columns := 2;
     originOffset := origin; margin := {| px := 1; py := 0 |} |}.

(** The same sheet with an origin offset of [(4, 2)] and a margin of
    [(1, 3)]. *)
Definition gridSpaced : GridConfig :=
  {| spriteWidth := 16; spriteHeight := 16; rows := 2; columns := 3;
     originOffset := {| px := 4; py := 2 |};
     margin := {| px := 1; py := 3 |} |}.

Definition appWith (im : option Image) (gc : GridConfig)
  (fs : list Frame) (sel : option Z) (playing : bool) : CodeGen.AppState :=
  {| CodeGen.image := im;
     CodeGen.parseMode := Some grid;
     CodeGen.gridConfig := gc;
     CodeGen.sourceViews := [];
     CodeGen.frames := fs;
     CodeGen.animations := [freeze3; end3];
     CodeGen.selectedAnimation := sel;
     CodeGen.animationGroupName := "PlayerAnimations";
     CodeGen.isPlaying := playing;
     CodeGen.currentFrameIdx := 0;
     CodeGen.imagePath := "hero.png";
     CodeGen.defaultDuration := 150;
     CodeGen.selectedSourceView := None |}.

Definition tickAt (k : Z) : Playback.Tick :=
  {| Playback.currentTime := 200 * k; Playback.effectTime := 200 * k + 1 |}.

End Samples.

(** ** Further JavaScript idioms *)

(** [arr.filter((_, i) => i !== index)], the position counted from
    [i0]. *)
Fixpoint filter_ne_from {A : Type} (i0 index : Z) (arr : list A) : list A :=
  match arr with
  | [] => []
  | v :: rest =>
      if i0 =? index
      then filter_ne_from (i0 + 1) index rest
      else v :: filter_ne_from (i0 + 1) index rest
  end.

Definition js_filter_ne {A : Type} (arr : list A) (index : Z) : list A :=
  filter_ne_from 0 index arr.

(** [parseInt(e.target.value) || k]: the text of a number input parses
    to an integer or to [NaN] (here [None]); [NaN] and [0] are falsy and
    give [k]. *)
Definition parseIntOr (v : option Z) (k : Z) : Z :=
  match v with
  | Some n => if n =? 0 then k else n
  | None => k
  end.

(** The outcome of an edit that stores [{ ...arr[i], ...updates }] at
    [arr[i]]: inside the array the element is replaced; [Throws] is a
    [TypeError]; [Malformed] stands for an index outside the array,
    where JavaScript would store an object that lacks the untouched
    fields of its TypeScript type. *)
Inductive edit (A : Type) : Type :=
| Edited (a : A)
| Throws
| Malformed.
Arguments Edited {A} a.
Arguments Throws {A}.
Arguments Malformed {A}.

Definition of_result {A : Type} (r : result A) : edit A :=
  match r with
  | Ok a => Edited a
  | TypeError => Throws
  end.

(** ** Animation management, continued (App.tsx, lines 258-305) *)

Module AnimationEdit.

(** [Partial<Animation>]. *)
Record AnimationUpdates := {
  u_name : option string;
  u_frames : option (list AnimationFrame);
  u_loopStrategy : option LoopStrategy
}.

(** [{ ...anim, ...updates }]. *)
Definition applyUpdates (anim : Animation) (u : AnimationUpdates)
  : Animation :=
  {| name := match u_name u with Some v => v | None => name anim end;
     frames := match u_frames u with Some v => v | None => frames anim end;
     loopStrategy := match u_loopStrategy u with
                     | Some v => v
                     | None => loopStrategy anim
                     end |}.

(** [updateAnimation] (lines 269-273). *)
Definition updateAnimation (animations : list Animation) (index : Z)
  (u : AnimationUpdates) : edit (list Animation) :=
  match js_index animations index with
  | None => Malformed
  | Some anim =>
      Edited (set_nth animations (Z.to_nat index) (applyUpdates anim u))
  end.

(** [addAnimation] (lines 259-267): the new list and the new
    selection. *)
Definition addAnimation (animations : list Animation)
  : list Animation * option Z :=
  let newAnim :=
    {| name := String.append "Animation"
                 (CodeGen.num (zlength animations + 1));
       frames := [];
       loopStrategy := Loop |} in
  (animations ++ [newAnim], Some (zlength animations)).

(** [deleteAnimation] (lines 275-283): the new list and the new
    selection. *)
Definition deleteAnimation (animations : list Animation)
  (selectedAnimation : option Z) (index : Z)
  : list Animation * option Z :=
  let updated := js_filter_ne animations index in
  match selectedAnimation with
  | None => (updated, None)
  | Some sel =>
      if sel =? index then (updated, None)
      else if index <? sel then (updated, Some (sel - 1))
      else (updated, Some sel)
  end.

(** [removeFrameFromAnimation] (lines 293-298). *)
Definition removeFrameFromAnimation (animations : list Animation)
  (animIndex frameIdx : Z) : edit (list Animation) :=
  match js_index animations animIndex with
  | None => Throws
  | Some anim =>
      updateAnimation animations animIndex
        {| u_name := None;
           u_frames := Some (js_filter_ne (frames anim) frameIdx);
           u_loopStrategy := None |}
  end.

(** [updateFrameDuration] (lines 300-305). *)
Definition updateFrameDuration (animations : list Animation)
  (animIndex frameIdx duration : Z) : edit (list Animation) :=
  match js_index animations animIndex with
  | None => Throws
  | Some anim =>
      match js_index (frames anim) frameIdx with
      | None => Malformed
      | Some f =>
          updateAnimation animations animIndex
            {| u_name := None;
               u_frames :=
                 Some (set_nth (frames anim) (Z.to_nat frameIdx)
                         {| frameIndex := frameIndex f;
                            duration := duration |});
               u_loopStrategy := None |}
      end
  end.

End AnimationEdit.

(** ** Source views and the canvas (App.tsx, lines 77-92, 207-223, 651) *)

Module SourceViews.

Inductive ViewField := ViewX | ViewY | ViewW | ViewH.

(** [addSourceView] (lines 77-86): the new list and the new selected
    source view. *)
Definition addSourceView (gc : GridConfig) (sourceViews : list SourceView)
  : list SourceView * option Z :=
  let newView := {| sv_x := 0; sv_y := 0;
                    sv_width := spriteWidth gc;
                    sv_height := spriteHeight gc |} in
  (sourceViews ++ [newView], Some (zlength sourceViews)).

(** [{ ...sv, [field]: v }], the one-field updates the inputs of lines
    665-692 pass to [updateSourceView]. *)
Definition setField (sv : SourceView) (fld : ViewField) (v : Z)
  : SourceView :=
  match fld with
  | ViewX => {| sv_x := v; sv_y := sv_y sv;
                sv_width := sv_width sv; sv_height := sv_height sv |}
  | ViewY => {| sv_x := sv_x sv; sv_y := v;
                sv_width := sv_width sv; sv_height := sv_height sv |}
  | ViewW => {| sv_x := sv_x sv; sv_y := sv_y sv;
                sv_width := v; sv_height := sv_height sv |}
  | ViewH => {| sv_x := sv_x sv; sv_y := sv_y sv;
                sv_width := sv_width sv; sv_height := v |}
  end.

(** [updateSourceView] (lines 88-92) with a one-field update. *)
Definition updateSourceView (sourceViews : list SourceView) (index : Z)
  (fld : ViewField) (v : Z) : edit (list SourceView) :=
  match js_index sourceViews index with
  | None => Malformed
  | Some sv =>
      Edited (set_nth sourceViews (Z.to_nat index) (setField sv fld v))
  end.

(** The delete button of a source view (line 651). *)
Definition deleteSourceView (sourceViews : list SourceView) (i : Z)
  : list SourceView :=
  js_filter_ne sourceViews i.

(** The predicate of [frames.find] in [handleCanvasMouseDown] (line
    217): both ends of both ranges are included. *)
Definition hits (cx cy : Z) (f : Frame) : bool :=
  (x f <=? cx) && (cx <=? x f + width f)
  && (y f <=? cy) && (cy <=? y f + height f).

(** [frames.find(f => ...)]: the first frame that contains the point. *)
Definition clickedFrame (frames : list Frame) (cx cy : Z) : option Frame :=
  find (hits cx cy) frames.

End SourceViews.

(** ** The application state and its event handlers *)

Module App.

Import CodeGen.
Local Open Scope Z_scope.

(** The initial values of the state cells (lines 45-70). *)
Definition initial : AppState :=
  {| image := None;
     parseMode := None;
     gridConfig := {| spriteWidth := 32; spriteHeight := 32;
                      rows := 1; columns := 1;
                      originOffset := {| px := 0; py := 0 |};
                      margin := {| px := 0; py := 0 |} |};
     sourceViews := [];
     frames := [];
     animations := [];
     selectedAnimation := None;
     animationGroupName := "PlayerAnimations";
     isPlaying := false;
     currentFrameIdx := 0;
     imagePath := "path/to/spritesheet.png";
     defaultDuration := 150;
     selectedSourceView := None |}.

(** The state setters. *)
Definition setImage (v : option Image) (st : AppState) : AppState :=
  {| image := v;
     parseMode := parseMode st;
     gridConfig := gridConfig st;
     sourceViews := sourceViews st;
     frames := frames st;
     animations := animations st;
     selectedAnimation := selectedAnimation st;
     animationGroupName := animationGroupName st;
     isPlaying := isPlaying st;
     currentFrameIdx := currentFrameIdx st;
     imagePath := imagePath st;
     defaultDuration := defaultDuration st;
     selectedSourceView := selectedSourceView st |}.

Definition setParseMode (v : option ParseMode) (st : AppState) : AppState :=
  {| image := image st;
     parseMode := v;
     gridConfig := gridConfig st;
     sourceViews := sourceViews st;
     frames := frames st;
     animations := animations st;
     selectedAnimation := selectedAnimation st;
     animationGroupName := animationGroupName st;
     isPlaying := isPlaying st;
     currentFrameIdx := currentFrameIdx st;
     imagePath := imagePath st;
     defaultDuration := defaultDuration st;
     selectedSourceView := selectedSourceView st |}.

Definition setGridConfig (v : GridConfig) (st : AppState) : AppState :=
  {| image := image st;
     parseMode := parseMode st;
     gridConfig := v;
     sourceViews := sourceViews st;
     frames := frames st;
     animations := animations st;
     selectedAnimation := selectedAnimation st;
     animationGroupName := animationGroupName st;
     isPlaying := isPlaying st;
     currentFrameIdx := currentFrameIdx st;
     imagePath := imagePath st;
     defaultDuration := defaultDuration st;
     selectedSourceView := selectedSourceView st |}.

Definition setSourceViews (v : list SourceView) (st : AppState) : AppState :=
  {| image := image st;
     parseMode := parseMode st;
     gridConfig := gridConfig st;
     sourceViews := v;
     frames := frames st;
     animations := animations st;
     selectedAnimation := selectedAnimation st;
     animationGroupName := animationGroupName st;
     isPlaying := isPlaying st;
     currentFrameIdx := currentFrameIdx st;
     imagePath := imagePath st;
     defaultDuration := defaultDuration st;
     selectedSourceView := selectedSourceView st |}.

Definition setFrames (v : list Frame) (st : AppState) : AppState :=
  {| image := image st;
     parseMode := parseMode st;
     gridConfig := gridConfig st;
     sourceViews := sourceViews st;
     frames := v;
     animations := animations st;
     selectedAnimation := selectedAnimation st;
     animationGroupName := animationGroupName st;
     isPlaying := isPlaying st;
     currentFrameIdx := currentFrameIdx st;
     imagePath := imagePath st;
     defaultDuration := defaultDuration st;
     selectedSourceView := selectedSourceView st |}.

Definition setAnimations (v : list Animation) (st : AppState) : AppState :=
  {| image := image st;
     parseMode := parseMode st;
     gridConfig := gridConfig st;
     sourceViews := sourceViews st;
     frames := frames st;
     animations := v;
     selectedAnimation := selectedAnimation st;
     animationGroupName := animationGroupName st;
     isPlaying := isPlaying st;
     currentFrameIdx := currentFrameIdx st;
     imagePath := imagePath st;
     defaultDuration := defaultDuration st;
     selectedSourceView := selectedSourceView st |}.

Definition setSelectedAnimation (v : option Z) (st : AppState) : AppState :=
  {| image := image st;
     parseMode := parseMode st;
     gridConfig := gridConfig st;
     sourceViews := sourceViews st;
     frames := frames st;
     animations := animations st;
     selectedAnimation := v;
     animationGroupName := animationGroupName st;
     isPlaying := isPlaying st;
     currentFrameIdx := currentFrameIdx st;
     imagePath := imagePath st;
     defaultDuration := defaultDuration st;
     selectedSourceView := selectedSourceView st |}.

Definition setAnimationGroupName (v : string) (st : AppState) : AppState :=
  {| image := image st;
     parseMode := parseMode st;
     gridConfig := gridConfig st;
     sourceViews := sourceViews st;
     frames := frames st;
     animations := animations st;
     selectedAnimation := selectedAnimation st;
     animationGroupName := v;
     isPlaying := isPlaying st;
     currentFrameIdx := currentFrameIdx st;
     imagePath := imagePath st;
     defaultDuration := defaultDuration st;
     selectedSourceView := selectedSourceView st |}.

Definition setIsPlaying (v : bool) (st : AppState) : AppState :=
  {| image := image st;
     parseMode := parseMode st;
     gridConfig := gridConfig st;
     sourceViews := sourceViews st;
     frames := frames st;
     animations := animations st;
     selectedAnimation := selectedAnimation st;
     animationGroupName := animationGroupName st;
     isPlaying := v;
     currentFrameIdx := currentFrameIdx st;
     imagePath := imagePath st;
     defaultDuration := defaultDuration st;
     selectedSourceView := selectedSourceView st |}.

Definition setCurrentFrameIdx (v : Z) (st : AppState) : AppState :=
  {| image := image st;
     parseMode := parseMode st;
     gridConfig := gridConfig st;
     sourceViews := sourceViews st;
     frames := frames st;
     animations := animations st;
     selectedAnimation := selectedAnimation st;
     animationGroupName := animationGroupName st;
     isPlaying := isPlaying st;
     currentFrameIdx := v;
     imagePath := imagePath st;
     defaultDuration := defaultDuration st;
     selectedSourceView := selectedSourceView st |}.

Definition setImagePath (v : string) (st : AppState) : AppState :=
  {| image := image st;
     parseMode := parseMode st;
     gridConfig := gridConfig st;
     sourceViews := sourceViews st;
     frames := frames st;
     animations := animations st;
     selectedAnimation := selectedAnimation st;
     animationGroupName := animationGroupName st;
     isPlaying := isPlaying st;
     currentFrameIdx := currentFrameIdx st;
     imagePath := v;
     defaultDuration := defaultDuration st;
     selectedSourceView := selectedSourceView st |}.

Definition setDefaultDuration (v : Z) (st : AppState) : AppState :=
  {| image := image st;
     parseMode := parseMode st;
     gridConfig := gridConfig st;
     sourceViews := sourceViews st;
     frames := frames st;
     animations := animations st;
     selectedAnimation := selectedAnimation st;
     animationGroupName := animationGroupName st;
     isPlaying := isPlaying st;
     currentFrameIdx := currentFrameIdx st;
     imagePath := imagePath st;
     defaultDuration := v;
     selectedSourceView := selectedSourceView st |}.

Definition setSelectedSourceView (v : option Z) (st : AppState) : AppState :=
  {| image := image st;
     parseMode := parseMode st;
     gridConfig := gridConfig st;
     sourceViews := sourceViews st;
     frames := frames st;
     animations := animations st;
     selectedAnimation := selectedAnimation st;
     animationGroupName := animationGroupName st;
     isPlaying := isPlaying st;
     currentFrameIdx := currentFrameIdx st;
     imagePath := imagePath st;
     defaultDuration := defaultDuration st;
     selectedSourceView := v |}.

Inductive GridField :=
| SpriteWidth | SpriteHeight | Rows | Columns
| OriginX | OriginY | MarginX | MarginY.

(** The [onChange] handlers of the grid inputs (lines 540-619). *)
Definition editGrid (gc : GridConfig) (fld : GridField) (v : option Z)
  : GridConfig :=
  match fld with
  | SpriteWidth =>
      {| spriteWidth := parseIntOr v 0; spriteHeight := spriteHeight gc;
         rows := rows gc; columns := columns gc;
         originOffset := originOffset gc; margin := margin gc |}
  | SpriteHeight =>
      {| spriteWidth := spriteWidth gc; spriteHeight := parseIntOr v 0;
         rows := rows gc; columns := columns gc;
         originOffset := originOffset gc; margin := margin gc |}
  | Rows =>
      {| spriteWidth := spriteWidth gc; spriteHeight := spriteHeight gc;
         rows := parseIntOr v 1; columns := columns gc;
         originOffset := originOffset gc; margin := margin gc |}
  | Columns =>
      {| spriteWidth := spriteWidth gc; spriteHeight := spriteHeight gc;
         rows := rows gc; columns := parseIntOr v 1;
         originOffset := originOffset gc; margin := margin gc |}
  | OriginX =>
      {| spriteWidth := spriteWidth gc; spriteHeight := spriteHeight gc;
         rows := rows gc; columns := columns gc;
         originOffset := {| px := parseIntOr v 0;
                            py := py (originOffset gc) |};
         margin := margin gc |}
  | OriginY =>
      {| spriteWidth := spriteWidth gc; spriteHeight := spriteHeight gc;
         rows := rows gc; columns := columns gc;
         originOffset := {| px := px (originOffset gc);
                            py := parseIntOr v 0 |};
         margin := margin gc |}
  | MarginX =>
      {| spriteWidth := spriteWidth gc; spriteHeight := spriteHeight gc;
         rows := rows gc; columns := columns gc;
         originOffset := originOffset gc;
         margin := {| px := parseIntOr v 0; py := py (margin gc) |} |}
  | MarginY =>
      {| spriteWidth := spriteWidth gc; spriteHeight := spriteHeight gc;
         rows := rows gc; columns := columns gc;
         originOffset := originOffset gc;
         margin := {| px := px (margin gc); py := parseIntOr v 0 |} |}
  end.

(** What the user, the image loader and the playback effects can do to
    the state.  [PlaybackWrites] stands for the writes of the playback
    callback and of the preview-drawing effect, which only ever call
    [setCurrentFrameIdx] and [setIsPlaying]. *)
Inductive Event :=
| ImageLoaded (img : Image) (fileName : string)
| ClickParseMode (m : ParseMode)
| EditGrid (fld : GridField) (v : option Z)
| AddSourceView
| EditSourceView (i : Z) (fld : SourceViews.ViewField) (v : option Z)
| DeleteSourceView (i : Z)
| SelectSourceView (i : Z)
| CanvasMouseDown (cx cy : Z)
| AddAnimation
| RenameAnimation (i : Z) (newName : string)
| DeleteAnimation (i : Z)
| ChangeLoopStrategy (i : Z) (ls : LoopStrategy)
| SelectAnimation (i : Z)
| EditDuration (i frameIdx : Z) (v : option Z)
| RemoveFrame (i frameIdx : Z)
| PickFrame (i : Z) (v : option Z)
| EditGroupName (newName : string)
| EditDefaultDuration (v : option Z)
| EditImagePath (path : string)
| TogglePlay
| Restart
| PlaybackWrites (idx : Z) (playing : bool).

Definition inRange {A : Type} (arr : list A) (i : Z) : bool :=
  (0 <=? i) && (i <? zlength arr).

Definition isSelected (st : AppState) (i : Z) : bool :=
  match selectedAnimation st with
  | Some sel => sel =? i
  | None => false
  end.

Definition setAnimationsOf (r : edit (list Animation)) (st : AppState)
  : edit AppState :=
  match r with
  | Edited l => Edited (setAnimations l st)
  | Throws => Throws
  | Malformed => Malformed
  end.

(** The handler of an event.  An event whose control is not rendered in
    the current state (the conditions of the JSX, lines 510-927, and the
    positions the lists are mapped over) cannot happen and leaves the
    state as it is. *)
Definition handle (ev : Event) (st : AppState) : edit AppState :=
  match ev with
  | ImageLoaded img fileName =>
      Edited (setSourceViews [] (setFrames [] (setParseMode None
                (setImagePath fileName (setImage (Some img) st)))))
  | ClickParseMode m =>
      match image st with
      | Some _ => Edited (setParseMode (Some m) st)
      | None => Edited st
      end
  | EditGrid fld v =>
      match parseMode st with
      | Some grid => Edited (setGridConfig (editGrid (gridConfig st) fld v) st)
      | _ => Edited st
      end
  | AddSourceView =>
      match parseMode st with
      | Some sourceview =>
          let '(views, sel) :=
            SourceViews.addSourceView (gridConfig st) (sourceViews st) in
          Edited (setSelectedSourceView sel (setSourceViews views st))
      | _ => Edited st
      end
  | EditSourceView i fld v =>
      match parseMode st with
      | Some sourceview =>
          if inRange (sourceViews st) i then
            match SourceViews.updateSourceView (sourceViews st) i fld
                    (parseIntOr v 0) with
            | Edited views => Edited (setSourceViews views st)
            | Throws => Throws
            | Malformed => Malformed
            end
          else Edited st
      | _ => Edited st
      end
  | DeleteSourceView i =>
      match parseMode st with
      | Some sourceview =>
          if inRange (sourceViews st) i
          then Edited (setSourceViews
                         (SourceViews.deleteSourceView (sourceViews st) i) st)
          else Edited st
      | _ => Edited st
      end
  | SelectSourceView i =>
      match parseMode st with
      | Some sourceview =>
          if inRange (sourceViews st) i
          then Edited (setSelectedSourceView (Some i) st)
          else Edited st
      | _ => Edited st
      end
  | CanvasMouseDown cx cy =>
      match image st, selectedAnimation st with
      | Some _, Some sel =>
          match SourceViews.clickedFrame (frames st) cx cy with
          | Some f =>
              setAnimationsOf
                (of_result
                   (AnimationModel.addFrameToAnimation (animations st)
                      (defaultDuration st) sel (index f)))
                st
          | None => Edited st
          end
      | _, _ => Edited st
      end
  | AddAnimation =>
      let '(anims, sel) := AnimationEdit.addAnimation (animations st) in
      Edited (setSelectedAnimation sel (setAnimations anims st))
  | RenameAnimation i newName =>
      if inRange (animations st) i then
        setAnimationsOf
          (AnimationEdit.updateAnimation (animations st) i
             {| AnimationEdit.u_name := Some newName;
                AnimationEdit.u_frames := None;
                AnimationEdit.u_loopStrategy := None |})
          st
      else Edited st
  | DeleteAnimation i =>
      if inRange (animations st) i then
        let '(anims, sel) :=
          AnimationEdit.deleteAnimation (animations st)
            (selectedAnimation st) i in
        Edited (setSelectedAnimation sel (setAnimations anims st))
      else Edited st
  | ChangeLoopStrategy i ls =>
      if inRange (animations st) i then
        setAnimationsOf
          (AnimationEdit.updateAnimation (animations st) i
             {| AnimationEdit.u_name := None;
                AnimationEdit.u_frames := None;
                AnimationEdit.u_loopStrategy := Some ls |})
          st
      else Edited st
  | SelectAnimation i =>
      if inRange (animations st) i
      then Edited (setIsPlaying false (setCurrentFrameIdx 0
                     (setSelectedAnimation (Some i) st)))
      else Edited st
  | EditDuration i frameIdx v =>
      match js_index (animations st) i with
      | Some anim =>
          if isSelected st i && inRange (Types.frames anim) frameIdx then
            setAnimationsOf
              (AnimationEdit.updateFrameDuration (animations st) i frameIdx
                 (parseIntOr v 150))
              st
          else Edited st
      | None => Edited st
      end
  | RemoveFrame i frameIdx =>
      match js_index (animations st) i with
      | Some anim =>
          if isSelected st i && inRange (Types.frames anim) frameIdx then
            setAnimationsOf
              (AnimationEdit.removeFrameFromAnimation (animations st) i
                 frameIdx)
              st
          else Edited st
      | None => Edited st
      end
  | PickFrame i v =>
      match v with
      | Some frameIndex =>
          if inRange (animations st) i && isSelected st i
             && existsb (fun f => index f =? frameIndex) (frames st)
          then
            setAnimationsOf
              (of_result
                 (AnimationModel.addFrameToAnimation (animations st)
                    (defaultDuration st) i frameIndex))
              st
          else Edited st
      | None => Edited st
      end
  | EditGroupName newName => Edited (setAnimationGroupName newName st)
  | EditDefaultDuration v => Edited (setDefaultDuration (parseIntOr v 0) st)
  | EditImagePath path =>
      if 0 <? zlength (animations st)
      then Edited (setImagePath path st)
      else Edited st
  | TogglePlay =>
      match selectedAnimation st with
      | Some _ => Edited (setIsPlaying (negb (isPlaying st)) st)
      | None => Edited st
      end
  | Restart =>
      match selectedAnimation st with
      | Some _ => Edited (setIsPlaying false (setCurrentFrameIdx 0 st))
      | None => Edited st
      end
  | PlaybackWrites idx playing =>
      Edited (setIsPlaying playing (setCurrentFrameIdx idx st))
  end.

(** Whether the handler of an event gave one of the dependencies of the
    frame effect (line 155) a new value: a new object or array always
    counts, the parse mode only when the text differs. *)
Definition frameDepsChanged (ev : Event) (st st' : AppState) : bool :=
  match ev with
  | ImageLoaded _ _ => true
  | ClickParseMode m =>
      match parseMode st, parseMode st' with
      | Some grid, Some grid => false
      | Some sourceview, Some sourceview => false
      | None, None => false
      | _, _ => true
      end
  | EditGrid _ _ =>
      match parseMode st with
      | Some grid => true
      | _ => false
      end
  | AddSourceView =>
      match parseMode st with
      | Some sourceview => true
      | _ => false
      end
  | EditSourceView i _ _ | DeleteSourceView i =>
      match parseMode st with
      | Some sourceview => inRange (sourceViews st) i
      | _ => false
      end
  | _ => false
  end.

(** The frame effect (lines 149-155). *)
Definition frameEffect (st : AppState) : AppState :=
  setFrames
    (FrameResolver.resolveFrames (parseMode st) (image st) (gridConfig st)
       (sourceViews st) (frames st))
    st.

(** The second dependency of the reset effect (line 204):
    [animations[selectedAnimation || 0]?.frames.length]. *)
Definition selectedLength (st : AppState) : option Z :=
  let i := match selectedAnimation st with
           | Some sel => sel
           | None => 0
           end in
  match js_index (animations st) i with
  | Some anim => Some (zlength (Types.frames anim))
  | None => None
  end.

Definition option_Z_eqb (a b : option Z) : bool :=
  match a, b with
  | Some p, Some q => p =? q
  | None, None => true
  | _, _ => false
  end.

(** The reset effect (lines 202-204). *)
Definition resetEffect (st st' : AppState) : AppState :=
  if option_Z_eqb (selectedAnimation st) (selectedAnimation st')
     && option_Z_eqb (selectedLength st) (selectedLength st')
  then st'
  else setCurrentFrameIdx 0 st'.

(** An event, then the effects whose dependencies it changed. *)
Definition step (ev : Event) (st : AppState) : edit AppState :=
  match handle ev st with
  | Edited st1 =>
      let st2 := if frameDepsChanged ev st st1 then frameEffect st1
                 else st1 in
      Edited (resetEffect st st2)
  | Throws => Throws
  | Malformed => Malformed
  end.

Fixpoint steps (evs : list Event) (st : AppState) : edit AppState :=
  match evs with
  | [] => Edited st
  | ev :: rest =>
      match step ev st with
      | Edited st' => steps rest st'
      | Throws => Throws
      | Malformed => Malformed
      end
  end.

(** The frame list the configuration stands for. *)
Definition derivedFrames (st : AppState) : list Frame :=
  match parseMode st with
  | None => []
  | Some grid => snd (FrameResolver.gridLoop (gridConfig st))
  | Some sourceview => FrameResolver.parseSourceViewFrames (sourceViews st)
  end.

End App.

(** ** The preview-drawing effect (App.tsx, lines 369-394) *)

Module Preview.

Import Playback.

(** What the effect does: nothing, [setCurrentFrameIdx(0)], or a paint
    of one frame on a canvas resized to four times the frame. *)
Inductive PreviewAction :=
| Nothing
| ResetIndex
| Paint (canvasWidth canvasHeight : Z) (src : Frame).

(** The effect for the selected animation [anim] ([None] when nothing is
    selected or the selection has no animation); [ready] says that the
    preview canvas, the image and the 2d context all exist. *)
Definition drawPreview (ready : bool) (anim : option Animation)
  (sheetFrames : list Frame) (currentFrameIdx : Z) : PreviewAction :=
  if negb ready then Nothing
  else
    match anim with
    | None => Nothing
    | Some a =>
        if zlength (frames a) =? 0 then Nothing
        else
          match js_index (frames a) currentFrameIdx with
          | None => ResetIndex
          | Some animFrame =>
              match js_index sheetFrames (frameIndex animFrame) with
              | None => Nothing
              | Some frame =>
                  Paint (width frame * 4) (height frame * 4) frame
              end
          end
    end.

(** A display frame as in [frameTick], and the time at which the
    playback effect runs once more if the preview effect resets the
    index. *)
Record Display := { tick : Tick; resetTime : Z }.

(** One display frame with both effects: after the callback and the
    playback effect, the preview effect runs if [currentFrameIdx]
    changed; its reset changes [currentFrameIdx] again, so the playback
    effect starts a fresh closure on frame 0. *)
Definition displayTick (ready : bool) (sheetFrames : list Frame)
  (anim : Animation) (d : Display) (s : PlaybackState)
  : result PlaybackState :=
  match frameTick anim (tick d) s with
  | TypeError => TypeError
  | Ok s1 =>
      if currentFrameIdx s1 =? currentFrameIdx s then Ok s1
      else
        match drawPreview ready (Some anim) sheetFrames
                (currentFrameIdx s1) with
        | ResetIndex =>
            Ok (playbackEffect anim (resetTime d)
                  {| frameIdx := frameIdx s1; lastTime := lastTime s1;
                     direction := direction s1; currentFrameIdx := 0;
                     isPlaying := isPlaying s1;
                     scheduled := scheduled s1 |})
        | _ => Ok s1
        end
  end.

Fixpoint displayRun (ready : bool) (sheetFrames : list Frame)
  (anim : Animation) (ds : list Display) (s : PlaybackState)
  : result PlaybackState :=
  match ds with
  | [] => Ok s
  | d :: rest =>
      match displayTick ready sheetFrames anim d s with
      | TypeError => TypeError
      | Ok s' => displayRun ready sheetFrames anim rest s'
      end
  end.

End Preview.

(** ** Drawing source views on the canvas (the earlier version of
    App.tsx, mouse handlers) *)

Module Drawing.

(** The state cells of the irregular mode: [isDrawing], [drawStart],
    [currentRect], and the source views. *)
Record DrawState := {
  isDrawing : bool;
  drawStart : option Point;
  currentRect : option SourceView;
  views : list SourceView
}.

Definition isSourceView (m : option ParseMode) : bool :=
  match m with
  | Some sourceview => true
  | _ => false
  end.

(** [handleCanvasMouseDown] at canvas position [(cx, cy)]. *)
Definition handleCanvasMouseDown (m : option ParseMode) (cx cy : Z)
  (ds : DrawState) : DrawState :=
  if negb (isSourceView m) then ds
  else
    {| isDrawing := true;
       drawStart := Some {| px := cx; py := cy |};
       currentRect := Some {| sv_x := cx; sv_y := cy;
                              sv_width := 0; sv_height := 0 |};
       views := views ds |}.

(** [handleCanvasMouseMove] at canvas position [(cx, cy)]. *)
Definition handleCanvasMouseMove (m : option ParseMode) (cx cy : Z)
  (ds : DrawState) : DrawState :=
  match drawStart ds with
  | Some start =>
      if negb (isDrawing ds) || negb (isSourceView m) then ds
      else
        let w := cx - px start in
        let h := cy - py start in
        {| isDrawing := isDrawing ds;
           drawStart := drawStart ds;
           currentRect :=
             Some {| sv_x := if w <? 0 then cx else px start;
                     sv_y := if h <? 0 then cy else py start;
                     sv_width := Z.abs w;
                     sv_height := Z.abs h |};
           views := views ds |}
  | None => ds
  end.

(** [handleCanvasMouseUp]. *)
Definition handleCanvasMouseUp (m : option ParseMode) (ds : DrawState)
  : DrawState :=
  match currentRect ds with
  | Some rect =>
      if negb (isDrawing ds) || negb (isSourceView m) then ds
      else
        {| isDrawing := false;
           drawStart := None;
           currentRect := None;
           views := if (5 <? sv_width rect) && (5 <? sv_height rect)
                    then views ds ++ [rect]
                    else views ds |}
  | None => ds
  end.

(** A drag: press, any number of moves, release. *)
Definition drag (m : option ParseMode) (cx0 cy0 : Z)
  (moves : list (Z * Z)) (ds : DrawState) : DrawState :=
  handleCanvasMouseUp m
    (fold_left (fun acc p => handleCanvasMouseMove m (fst p) (snd p) acc)
       moves (handleCanvasMouseDown m cx0 cy0 ds)).

End Drawing.

(** ** The lists of the generated text *)

Module CodeText.

Import CodeGen.

(** One source view, as line 435 writes it. *)
Definition viewLine (sv : SourceView) : string :=
  "    { x: " ++ num (sv_x sv) ++ ", y: " ++ num (sv_y sv)
  ++ ", width: " ++ num (sv_width sv)
  ++ ", height: " ++ num (sv_height sv) ++ " }".

(** One animation step, as line 456 writes it. *)
Definition stepLine (f : AnimationFrame) : string :=
  "      { graphic: spriteSheet.sprites[" ++ num (frameIndex f)
  ++ "], duration: " ++ num (duration f) ++ " }".

(** The rows joined by a comma and a line feed, with a line feed after
    the last one; nothing for no rows. *)
Definition joinRows (rows : list string) : string :=
  match rows with
  | [] => ""
  | _ :: _ => String.concat ("," ++ nl) rows ++ nl
  end.

(** One animation entry without its separator, lines 453-462. *)
Definition animationEntry (anim : Animation) : string :=
  "  " ++ name anim ++ ": new Animation({" ++ nl
  ++ "    frames: [" ++ nl
  ++ joinRows (map stepLine (Types.frames anim))
  ++ "    ]," ++ nl
  ++ "    strategy: AnimationStrategy." ++ strategyMap (loopStrategy anim)
  ++ nl ++ "  })".

End CodeText.

(** ** Further concrete inputs *)

Module MoreSamples.

Import Samples.

Definition loop4 : Animation :=
  {| name := "Run";
     frames := [step 0 150; step 1 150; step 2 150; step 3 150];
     loopStrategy := Loop |}.

Definition idle : Playback.PlaybackState :=
  {| Playback.frameIdx := 2; Playback.lastTime := 0;
     Playback.direction := 1; Playback.currentFrameIdx := 2;
     Playback.isPlaying := true; Playback.scheduled := true |}.

Definition displayAt (k : Z) : Preview.Display :=
  {| Preview.tick := tickAt k; Preview.resetTime := 200 * k + 2 |}.

Definition noDrawing : Drawing.DrawState :=
  {| Drawing.isDrawing := false; Drawing.drawStart := None;
     Drawing.currentRect := None; Drawing.views := [] |}.

End MoreSamples.

(** ** Streams of display frames that all advance *)

Module PlaybackRuns.

Import Playback.

(** Display frame [tk] comes late enough for the current step: the
    duration of the step the local counter designates, if there is such
    a step, has elapsed.  A condition on the time of the display frame
    only: it holds as well when the counter designates no step. *)
Definition fires (anim : Animation) (tk : Tick) (s : PlaybackState) : Prop :=
  forall f,
    js_index (frames anim) (frameIdx s) = Some f ->
    duration f <= currentTime tk - lastTime s.

(** Every display frame of the stream comes late enough for the step
    current at that time.  Nothing is asked of a callback that throws:
    the condition ends there. *)
Fixpoint allFire (anim : Animation) (ticks : list Tick) (s : PlaybackState)
  : Prop :=
  match ticks with
  | [] => True
  | tk :: rest =>
      fires anim tk s /\
      match frameTick anim tk s with
      | Ok s' => allFire anim rest s'
      | TypeError => True
      end
  end.

(** A closure freshly created by the playback effect on step [i]. *)
Definition fresh (i : Z) (s : PlaybackState) : Prop :=
  frameIdx s = i /\ currentFrameIdx s = i /\ direction s = 1
  /\ isPlaying s = true /\ scheduled s = true.

End PlaybackRuns.

(** ** What the event handlers keep true *)

Module AppInvariant.

Import CodeGen App.
Local Open Scope Z_scope.

(** A parse mode is only ever chosen with an image loaded; the frame
    list is the one the configuration stands for; a selected animation
    exists; the grid has neither zero rows nor zero columns. *)
Definition consistent (st : AppState) : Prop :=
  (parseMode st <> None -> image st <> None) /\
  frames st = derivedFrames st /\
  (forall sel, selectedAnimation st = Some sel ->
               0 <= sel < zlength (animations st)) /\
  rows (gridConfig st) <> 0 /\
  columns (gridConfig st) <> 0.

End AppInvariant.

(** ** A run of the application used in the examples *)

Module AppSamples.

Import Samples.

(** Load a sheet, choose the grid mode, type 0 and then 3 into the
    columns input, add two animations, delete the first one, click on
    the sheet, press play. *)
Definition session : list App.Event :=
  [ App.ImageLoaded sheet "hero.png";
    App.ClickParseMode grid;
    App.EditGrid App.Columns (Some 0);
    App.EditGrid App.Columns (Some 3);
    App.AddAnimation;
    App.AddAnimation;
    App.DeleteAnimation 0;
    App.CanvasMouseDown 40 10;
    App.TogglePlay ].

End AppSamples.

(** * Theorems *)

(** ** Facts about the JavaScript idioms *)

Lemma zrange_nonpos (n : Z) : n <= 0 -> zrange n = [].
Proof.
  intros Hn. unfold zrange.
  replace (Z.to_nat n) with 0%nat by lia. reflexivity.
Qed.

Lemma zrange_succ (k : nat) :
  zrange (Z.of_nat (S k)) = zrange (Z.of_nat k) ++ [Z.of_nat k].
Proof.
  unfold zrange. rewrite !Nat2Z.id, seq_S, map_app. reflexivity.
Qed.

Lemma zrange_length (k : nat) : List.length (zrange (Z.of_nat k)) = k.
Proof. unfold zrange. now rewrite length_map, length_seq, Nat2Z.id. Qed.

Lemma zrange_nth (k j : nat) :
  (j < k)%nat -> nth_error (zrange (Z.of_nat k)) j = Some (Z.of_nat j).
Proof.
  intros Hj. unfold zrange. rewrite Nat2Z.id, nth_error_map.
  rewrite nth_error_seq.
  destruct (Nat.ltb_spec j k) as [_|Hge]; [reflexivity | lia].
Qed.

Lemma for_lt_nonpos {St : Type} (n : Z) (body : Z -> St -> St) (s : St) :
  n <= 0 -> for_lt n body s = s.
Proof. intros Hn. unfold for_lt. now rewrite zrange_nonpos. Qed.

Lemma for_lt_succ {St : Type} (k : nat) (body : Z -> St -> St) (s : St) :
  for_lt (Z.of_nat (S k)) body s
  = body (Z.of_nat k) (for_lt (Z.of_nat k) body s).
Proof.
  unfold for_lt. rewrite zrange_succ, fold_left_app. reflexivity.
Qed.

Lemma mapi_from_length {A B : Type} (f : A -> Z -> B) (arr : list A) :
  forall i0, List.length (mapi_from f i0 arr) = List.length arr.
Proof.
  induction arr as [|v rest IH]; intros i0; simpl; [reflexivity|].
  now rewrite IH.
Qed.

Lemma mapi_from_nth {A B : Type} (f : A -> Z -> B) (arr : list A) :
  forall i0 k v,
    nth_error arr k = Some v ->
    nth_error (mapi_from f i0 arr) k = Some (f v (i0 + Z.of_nat k)).
Proof.
  induction arr as [|a rest IH]; intros i0 k v Hk.
  - destruct k; discriminate.
  - destruct k as [|k]; simpl in *.
    + inversion Hk; subst. now rewrite Z.add_0_r.
    + rewrite (IH (i0 + 1) k v Hk). do 2 f_equal. lia.
Qed.

Lemma js_index_in_range {A : Type} (arr : list A) (i : Z) :
  0 <= i < zlength arr -> exists v, js_index arr i = Some v.
Proof.
  unfold js_index, zlength. intros [Hlo Hhi].
  destruct (Z.ltb_spec i 0) as [Hneg|_]; [lia|].
  destruct (nth_error arr (Z.to_nat i)) as [v|] eqn:E; [now exists v|].
  apply nth_error_None in E. lia.
Qed.

Lemma js_index_out_of_range {A : Type} (arr : list A) (i : Z) :
  i < 0 \/ zlength arr <= i -> js_index arr i = None.
Proof.
  unfold js_index, zlength. intros H.
  destruct (Z.ltb_spec i 0) as [Hneg|Hpos]; [reflexivity|].
  apply nth_error_None. lia.
Qed.

Lemma In_zrange (i n : Z) : In i (zrange n) -> 0 <= i < n.
Proof.
  unfold zrange. intros H. apply in_map_iff in H.
  destruct H as (k & <- & Hk). apply in_seq in Hk. lia.
Qed.

Lemma fold_left_related {A St T : Type} (R : T -> St -> Prop)
  (g : T -> A -> T) (f : St -> A -> St) (l : list A) :
  (forall a t s, In a l -> R t s -> R (g t a) (f s a)) ->
  forall t s, R t s -> R (fold_left g l t) (fold_left f l s).
Proof.
  induction l as [|a l IH]; intros Hstep t s Hts; [exact Hts|].
  simpl. apply IH.
  - intros b t' s' Hb. apply Hstep. now right.
  - apply Hstep; [now left | exact Hts].
Qed.

Lemma js_index_map {A B : Type} (g : A -> B) (arr : list A) (i : Z) :
  js_index (map g arr) i = option_map g (js_index arr i).
Proof.
  unfold js_index. destruct (i <? 0); [reflexivity|].
  apply nth_error_map.
Qed.

(** ** Frame resolver *)

Section GridResolver.

Import FrameResolver.

Variable gc : GridConfig.

Lemma inner_loop_prefix (row : Z) (idx : Z) (fs : list Frame) (j : nat) :
  for_lt (Z.of_nat j)
    (fun col st' =>
       let '(idx, newFrames) := st' in
       (idx + 1, newFrames ++ [gridFrame gc idx row col]))
    (idx, fs)
  = (idx + Z.of_nat j,
     fs ++ map (fun col => gridFrame gc (idx + col) row col)
             (zrange (Z.of_nat j))).
Proof.
  induction j as [|j IH].
  - rewrite for_lt_nonpos by lia. simpl. now rewrite Z.add_0_r, app_nil_r.
  - rewrite for_lt_succ, IH, zrange_succ, map_app, app_assoc. simpl.
    f_equal. lia.
Qed.

Lemma columnLoop_closed (row idx : Z) (fs : list Frame) :
  0 <= columns gc ->
  columnLoop gc row (idx, fs)
  = (idx + columns gc,
     fs ++ map (fun col => gridFrame gc (idx + col) row col)
             (zrange (columns gc))).
Proof.
  intros Hc. unfold columnLoop.
  rewrite <- (Z2Nat.id (columns gc)) at 1 by lia.
  rewrite inner_loop_prefix. now rewrite Z2Nat.id by lia.
Qed.

Lemma rowFrames_length (c : nat) (row : Z) :
  List.length (rowFrames gc c row) = c.
Proof. unfold rowFrames. now rewrite length_map, zrange_length. Qed.

Lemma rowMajor_length (c k : nat) :
  List.length (rowMajor gc c k) = (k * c)%nat.
Proof.
  induction k as [|k IH]; simpl; [reflexivity|].
  rewrite length_app, IH, rowFrames_length. lia.
Qed.

Lemma outer_loop_prefix (k : nat) :
  0 <= columns gc ->
  for_lt (Z.of_nat k) (columnLoop gc) (0, [])
  = (Z.of_nat k * columns gc, rowMajor gc (Z.to_nat (columns gc)) k).
Proof.
  intros Hc. induction k as [|k IH].
  - rewrite for_lt_nonpos by lia. reflexivity.
  - rewrite for_lt_succ, IH, columnLoop_closed by exact Hc.
    simpl rowMajor. unfold rowFrames.
    rewrite !Z2Nat.id by lia. f_equal. lia.
Qed.

Lemma rowMajor_nth (c k i j : nat) :
  (i < k)%nat -> (j < c)%nat ->
  nth_error (rowMajor gc c k) (i * c + j)
  = Some (gridFrame gc (Z.of_nat i * Z.of_nat c + Z.of_nat j)
            (Z.of_nat i) (Z.of_nat j)).
Proof.
  intros Hi Hj. induction k as [|k IH]; [lia|]. simpl.
  destruct (Nat.eq_dec i k) as [->|Hne].
  - rewrite nth_error_app2 by (rewrite rowMajor_length; lia).
    rewrite rowMajor_length.
    replace (k * c + j - k * c)%nat with j by lia.
    unfold rowFrames. rewrite nth_error_map, zrange_nth by lia.
    reflexivity.
  - rewrite nth_error_app1 by (rewrite rowMajor_length; nia).
    apply IH. lia.
Qed.

Lemma gridLoop_closed :
  0 <= columns gc ->
  gridLoop gc
  = (Z.of_nat (Z.to_nat (rows gc)) * columns gc,
     rowMajor gc (Z.to_nat (columns gc)) (Z.to_nat (rows gc))).
Proof.
  intros Hc. rewrite <- outer_loop_prefix by exact Hc.
  unfold gridLoop, for_lt, zrange. rewrite !Nat2Z.id. reflexivity.
Qed.

Lemma gridLoop_no_rows : rows gc <= 0 -> gridLoop gc = (0, []).
Proof. intros H. unfold gridLoop. now rewrite for_lt_nonpos. Qed.

Lemma gridLoop_no_columns : columns gc <= 0 -> snd (gridLoop gc) = [].
Proof.
  intros H. unfold gridLoop, for_lt.
  generalize (zrange (rows gc)). intros l.
  assert (G : forall st,
             fold_left (fun acc i => columnLoop gc i acc) l st = st).
  { induction l as [|r l IH]; intros st; simpl; [reflexivity|].
    unfold columnLoop at 2. rewrite for_lt_nonpos by exact H. apply IH. }
  now rewrite G.
Qed.

Lemma gridLoop_length :
  0 < rows gc -> 0 < columns gc ->
  zlength (snd (gridLoop gc)) = rows gc * columns gc.
Proof.
  intros Hr Hc. rewrite gridLoop_closed by lia. cbn [snd].
  unfold zlength. rewrite rowMajor_length. nia.
Qed.

Lemma gridLoop_nth (row col : Z) :
  0 <= row < rows gc -> 0 <= col < columns gc ->
  js_index (snd (gridLoop gc)) (row * columns gc + col)
  = Some (gridFrame gc (row * columns gc + col) row col).
Proof.
  intros Hrow Hcol. rewrite gridLoop_closed by lia. cbn [snd].
  unfold js_index.
  destruct (Z.ltb_spec (row * columns gc + col) 0) as [Hneg|_]; [nia|].
  replace (Z.to_nat (row * columns gc + col))
    with (Z.to_nat row * Z.to_nat (columns gc) + Z.to_nat col)%nat by nia.
  rewrite rowMajor_nth by lia.
  rewrite !Z2Nat.id by lia. reflexivity.
Qed.

End GridResolver.

(** ** Doubles and the exact arithmetic *)

Section DoubleArithmetic.

Import Doubles.

(** Rounding at and beyond [2^53]: ties go to the even significand. *)
Example roundDouble_examples :
  roundDouble (2 ^ 53) = 2 ^ 53 /\
  roundDouble (2 ^ 53 + 1) = 2 ^ 53 /\
  roundDouble (2 ^ 53 + 2) = 2 ^ 53 + 2 /\
  roundDouble (2 ^ 53 + 3) = 2 ^ 53 + 4 /\
  roundDouble (- (2 ^ 53 + 1)) = - 2 ^ 53 /\
  roundDouble (10 ^ 23) = 99999999999999991611392.
Proof. vm_compute. repeat split. Qed.

Lemma roundDouble_safe (z : Z) : safeInteger z -> roundDouble z = z.
Proof.
  unfold safeInteger, roundDouble. intros Hz.
  destruct (Z.ltb_spec (Z.abs z) two53) as [_|Hge]; [reflexivity | lia].
Qed.

Lemma two53_below_overflow : two53 < overflow.
Proof. vm_compute. reflexivity. Qed.

Lemma ofExact_safe (z : Z) : safeInteger z -> ofExact z = Fin z.
Proof.
  intros Hz. unfold ofExact. cbv zeta. rewrite (roundDouble_safe z Hz).
  pose proof two53_below_overflow as Hlt. unfold safeInteger in Hz.
  destruct (Z.leb_spec overflow z) as [Hbig|_]; [lia|].
  destruct (Z.leb_spec z (- overflow)) as [Hsmall|_]; [lia | reflexivity].
Qed.

Lemma add_safe (a b : Z) :
  safeInteger (a + b) -> add (Fin a) (Fin b) = Fin (a + b).
Proof. intros H. simpl. now apply ofExact_safe. Qed.

Lemma mul_safe (a b : Z) :
  safeInteger (a * b) -> mul (Fin a) (Fin b) = Fin (a * b).
Proof. intros H. simpl. now apply ofExact_safe. Qed.

(** A product and a position within a row (column) are safe when those
    of its last column (row) are. *)
Lemma safeInteger_scaled (n k s : Z) :
  0 <= k < n -> safeInteger ((n - 1) * s) -> safeInteger (k * s).
Proof.
  unfold safeInteger. intros Hk Hs.
  destruct (Z.le_gt_cases 0 s) as [Hpos|Hneg].
  - assert (0 <= (n - 1 - k) * s) by (apply Z.mul_nonneg_nonneg; lia).
    assert (0 <= k * s) by (apply Z.mul_nonneg_nonneg; lia).
    lia.
  - assert (0 <= (n - 1 - k) * - s) by (apply Z.mul_nonneg_nonneg; lia).
    assert (0 <= k * - s) by (apply Z.mul_nonneg_nonneg; lia).
    lia.
Qed.

Lemma safeInteger_position (n k o s : Z) :
  0 <= k < n -> safeInteger o -> safeInteger (o + (n - 1) * s) ->
  safeInteger (o + k * s).
Proof.
  unfold safeInteger. intros Hk Ho Hs.
  destruct (Z.le_gt_cases 0 s) as [Hpos|Hneg].
  - assert (0 <= (n - 1 - k) * s) by (apply Z.mul_nonneg_nonneg; lia).
    assert (0 <= k * s) by (apply Z.mul_nonneg_nonneg; lia).
    lia.
  - assert (0 <= (n - 1 - k) * - s) by (apply Z.mul_nonneg_nonneg; lia).
    assert (0 <= k * - s) by (apply Z.mul_nonneg_nonneg; lia).
    lia.
Qed.

End DoubleArithmetic.

Section DoubleResolver.

Import FrameResolver Doubles.

Variable gc : GridConfig.
Hypothesis Hexact : IEEE.exactPositions gc.

(** Within the safe integers no operation of the position arithmetic
    rounds: the frame of the code is the frame of exact arithmetic. *)
Lemma gridFrame_exact (idx row col : Z) :
  0 <= row < rows gc -> 0 <= col < columns gc ->
  IEEE.gridFrame gc idx row col = IEEE.exact (gridFrame gc idx row col).
Proof.
  intros Hrow Hcol.
  destruct Hexact as (Hr & Hc & Hw & Hh & Hox & Hoy & Hmx & Hmy
                      & Hsx & Hsy & Hpx & Hpy & Hlx & Hly).
  assert (Hcol' : safeInteger col) by (unfold safeInteger in *; lia).
  assert (Hrow' : safeInteger row) by (unfold safeInteger in *; lia).
  unfold IEEE.gridFrame, IEEE.exact. cbn [index x y width height gridFrame].
  rewrite !ofExact_safe by assumption.
  rewrite !add_safe by assumption.
  rewrite (mul_safe col)
    by (apply (safeInteger_scaled (columns gc)); assumption).
  rewrite (mul_safe row)
    by (apply (safeInteger_scaled (rows gc)); assumption).
  rewrite !add_safe; [reflexivity| |].
  - apply (safeInteger_position (rows gc)); assumption.
  - apply (safeInteger_position (columns gc)); assumption.
Qed.

(** So are the loops, step by step. *)
Lemma gridLoop_exact :
  IEEE.gridLoop gc
  = (fst (gridLoop gc), map IEEE.exact (snd (gridLoop gc))).
Proof.
  unfold IEEE.gridLoop, gridLoop, for_lt.
  apply (fold_left_related
           (fun (t : Z * list IEEE.Frame) (s : Z * list Frame) =>
              t = (fst s, map IEEE.exact (snd s))));
    [|reflexivity].
  intros row t s Hrow ->. apply In_zrange in Hrow.
  unfold IEEE.columnLoop, columnLoop, for_lt.
  apply (fold_left_related
           (fun (t : Z * list IEEE.Frame) (s : Z * list Frame) =>
              t = (fst s, map IEEE.exact (snd s))));
    [|reflexivity].
  intros col t [idx nf] Hcol ->. apply In_zrange in Hcol.
  cbn [fst snd]. rewrite map_app. cbn [map].
  now rewrite gridFrame_exact.
Qed.

End DoubleResolver.

(** The loops of the double resolver, in closed form. *)

Section DoubleGridResolver.

Variable gc : GridConfig.

Lemma ieee_inner_loop_prefix (row : Z) (idx : Z) (fs : list IEEE.Frame)
  (j : nat) :
  for_lt (Z.of_nat j)
    (fun col st' =>
       let '(idx, newFrames) := st' in
       (idx + 1, newFrames ++ [IEEE.gridFrame gc idx row col]))
    (idx, fs)
  = (idx + Z.of_nat j,
     fs ++ map (fun col => IEEE.gridFrame gc (idx + col) row col)
             (zrange (Z.of_nat j))).
Proof.
  induction j as [|j IH].
  - rewrite for_lt_nonpos by lia. simpl. now rewrite Z.add_0_r, app_nil_r.
  - rewrite for_lt_succ, IH, zrange_succ, map_app, app_assoc. simpl.
    f_equal. lia.
Qed.

Lemma ieee_columnLoop_closed (row idx : Z) (fs : list IEEE.Frame) :
  0 <= columns gc ->
  IEEE.columnLoop gc row (idx, fs)
  = (idx + columns gc,
     fs ++ map (fun col => IEEE.gridFrame gc (idx + col) row col)
             (zrange (columns gc))).
Proof.
  intros Hc. unfold IEEE.columnLoop.
  rewrite <- (Z2Nat.id (columns gc)) at 1 by lia.
  rewrite ieee_inner_loop_prefix. now rewrite Z2Nat.id by lia.
Qed.

Lemma ieee_rowFrames_length (c : nat) (row : Z) :
  List.length (IEEE.rowFrames gc c row) = c.
Proof. unfold IEEE.rowFrames. now rewrite length_map, zrange_length. Qed.

Lemma ieee_rowMajor_length (c k : nat) :
  List.length (IEEE.rowMajor gc c k) = (k * c)%nat.
Proof.
  induction k as [|k IH]; simpl; [reflexivity|].
  rewrite length_app, IH, ieee_rowFrames_length. lia.
Qed.

Lemma ieee_outer_loop_prefix (k : nat) :
  0 <= columns gc ->
  for_lt (Z.of_nat k) (IEEE.columnLoop gc) (0, [])
  = (Z.of_nat k * columns gc, IEEE.rowMajor gc (Z.to_nat (columns gc)) k).
Proof.
  intros Hc. induction k as [|k IH].
  - rewrite for_lt_nonpos by lia. reflexivity.
  - rewrite for_lt_succ, IH, ieee_columnLoop_closed by exact Hc.
    simpl IEEE.rowMajor. unfold IEEE.rowFrames.
    rewrite !Z2Nat.id by lia. f_equal. lia.
Qed.

Lemma ieee_rowMajor_nth (c k i j : nat) :
  (i < k)%nat -> (j < c)%nat ->
  nth_error (IEEE.rowMajor gc c k) (i * c + j)
  = Some (IEEE.gridFrame gc (Z.of_nat i * Z.of_nat c + Z.of_nat j)
            (Z.of_nat i) (Z.of_nat j)).
Proof.
  intros Hi Hj. induction k as [|k IH]; [lia|]. simpl.
  destruct (Nat.eq_dec i k) as [->|Hne].
  - rewrite nth_error_app2 by (rewrite ieee_rowMajor_length; lia).
    rewrite ieee_rowMajor_length.
    replace (k * c + j - k * c)%nat with j by lia.
    unfold IEEE.rowFrames. rewrite nth_error_map, zrange_nth by lia.
    reflexivity.
  - rewrite nth_error_app1 by (rewrite ieee_rowMajor_length; nia).
    apply IH. lia.
Qed.

Lemma ieee_gridLoop_closed :
  0 <= columns gc ->
  IEEE.gridLoop gc
  = (Z.of_nat (Z.to_nat (rows gc)) * columns gc,
     IEEE.rowMajor gc (Z.to_nat (columns gc)) (Z.to_nat (rows gc))).
Proof.
  intros Hc. rewrite <- ieee_outer_loop_prefix by exact Hc.
  unfold IEEE.gridLoop, for_lt, zrange. rewrite !Nat2Z.id. reflexivity.
Qed.

Lemma ieee_gridLoop_length :
  0 < rows gc -> 0 < columns gc ->
  zlength (snd (IEEE.gridLoop gc)) = rows gc * columns gc.
Proof.
  intros Hr Hc. rewrite ieee_gridLoop_closed by lia. cbn [snd].
  unfold zlength. rewrite ieee_rowMajor_length. nia.
Qed.

Lemma ieee_gridLoop_nth (row col : Z) :
  0 <= row < rows gc -> 0 <= col < columns gc ->
  js_index (snd (IEEE.gridLoop gc)) (row * columns gc + col)
  = Some (IEEE.gridFrame gc (row * columns gc + col) row col).
Proof.
  intros Hrow Hcol. rewrite ieee_gridLoop_closed by lia. cbn [snd].
  unfold js_index.
  destruct (Z.ltb_spec (row * columns gc + col) 0) as [Hneg|_]; [nia|].
  replace (Z.to_nat (row * columns gc + col))
    with (Z.to_nat row * Z.to_nat (columns gc) + Z.to_nat col)%nat by nia.
  rewrite ieee_rowMajor_nth by lia.
  rewrite !Z2Nat.id by lia. reflexivity.
Qed.

End DoubleGridResolver.

Section FrameResolverTheorems.

Import FrameResolver Samples.

(** C1, as stated, fails: the positions are computed in doubles.  For
    one row of two sprites of width [2^53] with a horizontal margin of
    1, the second frame is at [x = 2^53], not at the
    [originOffset.x + 1 * (spriteWidth + margin.x) = 2^53 + 1] of the
    claim: the sum is not a double and is rounded to [2^53]. *)
Lemma huge_sprite_width_rounds_position :
  0 < rows gridHuge /\ 0 < columns gridHuge /\
  js_index (IEEE.parseGridFrames (Some sheet) gridHuge []) 1
  = Some {| IEEE.index := 1;
            IEEE.x := Doubles.Fin 9007199254740992;
            IEEE.y := Doubles.Fin 0;
            IEEE.width := Doubles.Fin 9007199254740992;
            IEEE.height := Doubles.Fin 16 |} /\
  px (originOffset gridHuge)
  + 1 * (spriteWidth gridHuge + px (margin gridHuge))
  = 9007199254740993 /\
  Doubles.Fin 9007199254740992
  <> Doubles.Fin (px (originOffset gridHuge)
                  + 1 * (spriteWidth gridHuge + px (margin gridHuge))).
Proof.
  split; [simpl; lia|]. split; [simpl; lia|].
  split; [vm_compute; reflexivity|].
  split; [reflexivity|]. simpl. discriminate.
Qed.

(** C1, amended. With an image loaded, [rows > 0] and [columns > 0],
    the grid resolver produces exactly [rows * columns] frames in
    row-major order: the frame at position [row * columns + col] has
    that position as its [index], the configured sprite size, and as
    [x] and [y] the values of
    [originOffset.x + col * (spriteWidth + margin.x)] and
    [originOffset.y + row * (spriteHeight + margin.y)] in double
    arithmetic.  These are the exact values of the two expressions
    whenever the configured numbers and the intermediate results of the
    position arithmetic are safe integers ([exactPositions]). *)
Theorem parseGridFrames_row_major
  (img : Image) (gc : GridConfig) (old : list IEEE.Frame) :
  0 < rows gc -> 0 < columns gc ->
  zlength (IEEE.parseGridFrames (Some img) gc old) = rows gc * columns gc /\
  (forall row col,
      0 <= row < rows gc -> 0 <= col < columns gc ->
      js_index (IEEE.parseGridFrames (Some img) gc old)
        (row * columns gc + col)
      = Some {| IEEE.index := row * columns gc + col;
                IEEE.x :=
                  Doubles.add (Doubles.ofExact (px (originOffset gc)))
                    (Doubles.mul (Doubles.ofExact col)
                       (Doubles.add (Doubles.ofExact (spriteWidth gc))
                          (Doubles.ofExact (px (margin gc)))));
                IEEE.y :=
                  Doubles.add (Doubles.ofExact (py (originOffset gc)))
                    (Doubles.mul (Doubles.ofExact row)
                       (Doubles.add (Doubles.ofExact (spriteHeight gc))
                          (Doubles.ofExact (py (margin gc)))));
                IEEE.width := Doubles.ofExact (spriteWidth gc);
                IEEE.height := Doubles.ofExact (spriteHeight gc) |}) /\
  (IEEE.exactPositions gc ->
   forall row col,
     0 <= row < rows gc -> 0 <= col < columns gc ->
     js_index (IEEE.parseGridFrames (Some img) gc old)
       (row * columns gc + col)
     = Some {| IEEE.index := row * columns gc + col;
               IEEE.x := Doubles.Fin
                           (px (originOffset gc)
                            + col * (spriteWidth gc + px (margin gc)));
               IEEE.y := Doubles.Fin
                           (py (originOffset gc)
                            + row * (spriteHeight gc + py (margin gc)));
               IEEE.width := Doubles.Fin (spriteWidth gc);
               IEEE.height := Doubles.Fin (spriteHeight gc) |}).
Proof.
  intros Hr Hc. unfold IEEE.parseGridFrames. split; [|split].
  - now apply ieee_gridLoop_length.
  - intros row col Hrow Hcol. now rewrite ieee_gridLoop_nth.
  - intros Hex row col Hrow Hcol.
    rewrite ieee_gridLoop_nth by assumption.
    now rewrite (gridFrame_exact gc Hex) by assumption.
Qed.

(** C1 amended, at the example of the specification: the 2 x 3 grid of
    16 x 16 sprites has 6 frames and frame 4 sits at [(16, 16)]. *)
Lemma parseGridFrames_row_major_witness :
  zlength (IEEE.parseGridFrames (Some sheet) grid2x3 []) = 6 /\
  js_index (IEEE.parseGridFrames (Some sheet) grid2x3 []) 4
  = Some {| IEEE.index := 4;
            IEEE.x := Doubles.Fin 16; IEEE.y := Doubles.Fin 16;
            IEEE.width := Doubles.Fin 16; IEEE.height := Doubles.Fin 16 |}.
Proof.
  assert (Hr : 0 < rows grid2x3) by (simpl; lia).
  assert (Hc : 0 < columns grid2x3) by (simpl; lia).
  assert (Hex : IEEE.exactPositions grid2x3)
    by (unfold IEEE.exactPositions, Doubles.safeInteger; simpl; lia).
  destruct (parseGridFrames_row_major sheet grid2x3 [] Hr Hc)
    as (Hlen & _ & Hnth).
  split.
  - exact Hlen.
  - apply (Hnth Hex 1 1); simpl; lia.
Defined.

(** C3, as stated, fails: a grid with [spriteWidth = 0] but one row and
    one column still resolves to a frame. *)
Lemma zero_width_grid_has_a_frame :
  spriteWidth gridZeroWidth <= 0 /\
  parseGridFrames (Some sheet) gridZeroWidth []
  = [ {| index := 0; x := 0; y := 0; width := 0; height := 32 |} ] /\
  parseGridFrames (Some sheet) gridZeroWidth [] <> [].
Proof.
  split; [simpl; lia|]. split; [reflexivity | discriminate].
Qed.

(** C3, amended. With an image loaded, a grid with [rows <= 0] or
    [columns <= 0] resolves to the empty frame list; without an image
    the frame list is left as it is (it is empty at the start, and an
    image, once loaded, is never unloaded).  The sprite size plays no
    part: with an image and positive [rows] and [columns] the resolver
    produces [rows * columns] frames, each with the configured
    [spriteWidth] and [spriteHeight] as its width and height, whatever
    these are, zero and negative included. *)
Theorem parseGridFrames_empty_grid
  (image : option Image) (gc : GridConfig) (old : list Frame) :
  (image = None -> parseGridFrames image gc old = old) /\
  (image <> None -> rows gc <= 0 \/ columns gc <= 0 ->
   parseGridFrames image gc old = []) /\
  (image <> None -> 0 < rows gc -> 0 < columns gc ->
   zlength (parseGridFrames image gc old) = rows gc * columns gc /\
   forall j f,
     js_index (parseGridFrames image gc old) j = Some f ->
     width f = spriteWidth gc /\ height f = spriteHeight gc).
Proof.
  split; [|split].
  - intros ->. reflexivity.
  - intros Himg Hbad. destruct image as [img|]; [|congruence]. simpl.
    destruct Hbad as [Hr|Hc].
    + now rewrite gridLoop_no_rows.
    + now apply gridLoop_no_columns.
  - intros Himg Hr Hc. destruct image as [img|]; [|congruence].
    simpl. split; [now apply gridLoop_length|].
    intros j f Hj.
    assert (Hin : 0 <= j < rows gc * columns gc).
    { rewrite <- (gridLoop_length gc Hr Hc).
      destruct (Z.lt_ge_cases j 0) as [Hneg|Hnn].
      - rewrite js_index_out_of_range in Hj by (left; exact Hneg).
        discriminate.
      - destruct (Z.lt_ge_cases j (zlength (snd (gridLoop gc))))
          as [Hlt|Hge]; [lia|].
        rewrite js_index_out_of_range in Hj by (right; exact Hge).
        discriminate. }
    assert (Hrow : 0 <= j / columns gc < rows gc).
    { split; [apply Z.div_pos; lia|].
      apply Z.div_lt_upper_bound; lia. }
    assert (Hcol : 0 <= j mod columns gc < columns gc)
      by (apply Z.mod_pos_bound; lia).
    pose proof (gridLoop_nth gc _ _ Hrow Hcol) as Hnth.
    replace (j / columns gc * columns gc + j mod columns gc) with j in Hnth
      by (rewrite (Z.div_mod j (columns gc)) at 1; lia).
    rewrite Hnth in Hj. injection Hj as <-. split; reflexivity.
Qed.

(** C3 amended, at a grid with no rows, at the zero-width grid, whose
    one frame has width 0 and height 32, and without an image. *)
Lemma parseGridFrames_empty_grid_witness :
  parseGridFrames (Some sheet)
    {| spriteWidth := 16; spriteHeight := 16; rows := 0; columns := 3;
       originOffset := origin; margin := origin |} [] = [] /\
  zlength (parseGridFrames (Some sheet) gridZeroWidth []) = 1 /\
  (forall f,
      js_index (parseGridFrames (Some sheet) gridZeroWidth []) 0 = Some f ->
      width f = 0 /\ height f = 32) /\
  parseGridFrames None grid2x3
    [ {| index := 0; x := 0; y := 0; width := 8; height := 8 |} ]
  = [ {| index := 0; x := 0; y := 0; width := 8; height := 8 |} ].
Proof.
  destruct (parseGridFrames_empty_grid (Some sheet)
              {| spriteWidth := 16; spriteHeight := 16; rows := 0;
                 columns := 3; originOffset := origin; margin := origin |} [])
    as (_ & Hempty & _).
  destruct (parseGridFrames_empty_grid (Some sheet) gridZeroWidth [])
    as (_ & _ & Hsize).
  destruct (parseGridFrames_empty_grid None grid2x3
              [ {| index := 0; x := 0; y := 0; width := 8; height := 8 |} ])
    as (Hnone & _).
  destruct Hsize as [Hlen Hwh].
  - discriminate.
  - simpl. lia.
  - simpl. lia.
  - split; [|split; [|split]].
    + apply Hempty; [discriminate | left; simpl; lia].
    + exact Hlen.
    + intros f Hf. exact (Hwh 0 f Hf).
    + apply Hnone. reflexivity.
Defined.

(** X24. Within the safe integers the grid resolver is the resolver
    of exact integer arithmetic: when the configured numbers and the
    intermediate results of the position arithmetic are safe integers,
    the frames computed in doubles are, one by one and field by field,
    the frames computed in [Z], whatever the image and the old frame
    list are. *)
Theorem parseGridFrames_exact_in_safe_range
  (image : option Image) (gc : GridConfig) (old : list Frame) :
  IEEE.exactPositions gc ->
  IEEE.parseGridFrames image gc (map IEEE.exact old)
  = map IEEE.exact (parseGridFrames image gc old).
Proof.
  intros Hex. unfold IEEE.parseGridFrames, parseGridFrames.
  destruct image as [img|]; [|reflexivity].
  now rewrite (gridLoop_exact gc Hex).
Qed.

(** X24 at the 2 x 3 grid with an origin offset of [(4, 2)] and a
    margin of [(1, 3)]: frame 5 is at [(38, 21)] in both. *)
Lemma parseGridFrames_exact_in_safe_range_witness :
  IEEE.parseGridFrames (Some sheet) gridSpaced []
  = map IEEE.exact (parseGridFrames (Some sheet) gridSpaced []) /\
  js_index (parseGridFrames (Some sheet) gridSpaced []) 5
  = Some {| index := 5; x := 38; y := 21; width := 16; height := 16 |}.
Proof.
  split; [|reflexivity].
  apply (parseGridFrames_exact_in_safe_range (Some sheet) gridSpaced []).
  unfold IEEE.exactPositions, Doubles.safeInteger. simpl. lia.
Defined.

(** C4. The source-view resolver keeps the length and the order of the
    stored list: the frame at position [i] carries the rectangle of the
    [i]-th source view and [index = i]; the empty list resolves to the
    empty frame list. *)
Theorem parseSourceViewFrames_elementwise (svs : list SourceView) :
  List.length (parseSourceViewFrames svs) = List.length svs /\
  (forall i sv,
      nth_error svs i = Some sv ->
      nth_error (parseSourceViewFrames svs) i
      = Some {| index := Z.of_nat i;
                x := sv_x sv; y := sv_y sv;
                width := sv_width sv; height := sv_height sv |}) /\
  (svs = [] -> parseSourceViewFrames svs = []).
Proof.
  unfold parseSourceViewFrames, js_mapi. split; [|split].
  - apply mapi_from_length.
  - intros i sv Hi.
    now rewrite (mapi_from_nth _ svs 0 i sv Hi).
  - intros ->. reflexivity.
Qed.

(** C4 at a list of two source views and at the empty list. *)
Lemma parseSourceViewFrames_elementwise_witness :
  nth_error (parseSourceViewFrames twoViews) 1
  = Some {| index := 1; x := 20; y := 0; width := 7; height := 9 |} /\
  parseSourceViewFrames [] = [].
Proof.
  split.
  - destruct (parseSourceViewFrames_elementwise twoViews) as [_ [H _]].
    exact (H 1%nat
             {| sv_x := 20; sv_y := 0; sv_width := 7; sv_height := 9 |}
             eq_refl).
  - destruct (parseSourceViewFrames_elementwise []) as [_ [_ H]].
    apply H. reflexivity.
Defined.

End FrameResolverTheorems.

(** ** Preview playback *)

Section PlaybackTheorems.

Import Playback Samples.

Lemma animate_waits (anim : Animation) (t : Z) (s : PlaybackState)
  (f : AnimationFrame) :
  js_index (frames anim) (frameIdx s) = Some f ->
  t - lastTime s < duration f ->
  animate anim t s = Ok (reschedule s).
Proof.
  intros Hf Hlt. unfold animate. rewrite Hf.
  destruct (Z.leb_spec (duration f) (t - lastTime s)); [lia | reflexivity].
Qed.

Lemma animate_fires_freeze (anim : Animation) (t : Z) (s : PlaybackState)
  (f : AnimationFrame) :
  loopStrategy anim = Freeze ->
  js_index (frames anim) (frameIdx s) = Some f ->
  duration f <= t - lastTime s ->
  animate anim t s
  = Ok (commit s t (if zlength (frames anim) <=? frameIdx s + 1
                    then zlength (frames anim) - 1 else frameIdx s + 1)
               (direction s)).
Proof.
  intros Hls Hf Hge. unfold animate. rewrite Hf, Hls.
  destruct (Z.leb_spec (duration f) (t - lastTime s)); [|lia].
  now destruct (zlength (frames anim) <=? frameIdx s + 1).
Qed.

Lemma animate_fires_end (anim : Animation) (t : Z) (s : PlaybackState)
  (f : AnimationFrame) :
  loopStrategy anim = End ->
  js_index (frames anim) (frameIdx s) = Some f ->
  duration f <= t - lastTime s ->
  animate anim t s
  = Ok (if zlength (frames anim) <=? frameIdx s + 1
        then stop s t (frameIdx s + 1)
        else commit s t (frameIdx s + 1) (direction s)).
Proof.
  intros Hls Hf Hge. unfold animate. rewrite Hf, Hls.
  destruct (Z.leb_spec (duration f) (t - lastTime s)); [|lia].
  now destruct (zlength (frames anim) <=? frameIdx s + 1).
Qed.

Lemma animate_fires_pingpong (anim : Animation) (t : Z) (s : PlaybackState)
  (f : AnimationFrame) :
  loopStrategy anim = PingPong ->
  js_index (frames anim) (frameIdx s) = Some f ->
  duration f <= t - lastTime s ->
  animate anim t s
  = Ok (if zlength (frames anim) <=? frameIdx s + direction s
        then commit s t (zlength (frames anim) - 2) (-1)
        else if frameIdx s + direction s <? 0
             then commit s t 1 1
             else commit s t (frameIdx s + direction s) (direction s)).
Proof.
  intros Hls Hf Hge. unfold animate. rewrite Hf, Hls.
  destruct (Z.leb_spec (duration f) (t - lastTime s)); [|lia].
  destruct (zlength (frames anim) <=? frameIdx s + direction s);
    [reflexivity|].
  now destruct (frameIdx s + direction s <? 0).
Qed.

Lemma animate_fires_loop (anim : Animation) (t : Z) (s : PlaybackState)
  (f : AnimationFrame) :
  loopStrategy anim = Loop ->
  js_index (frames anim) (frameIdx s) = Some f ->
  duration f <= t - lastTime s ->
  animate anim t s
  = Ok (commit s t (Z.rem (frameIdx s + 1) (zlength (frames anim)))
               (direction s)).
Proof.
  intros Hls Hf Hge. unfold animate. rewrite Hf, Hls.
  now destruct (Z.leb_spec (duration f) (t - lastTime s)); [|lia].
Qed.

Lemma animate_undefined_frame (anim : Animation) (t : Z)
  (s : PlaybackState) :
  frameIdx s < 0 \/ zlength (frames anim) <= frameIdx s ->
  animate anim t s = TypeError.
Proof.
  intros H. unfold animate. now rewrite js_index_out_of_range.
Qed.

(** C9. For an animation of at least two frames, whatever its loop
    strategy, one call of the playback callback from a state whose
    counter and committed index are inside [0, frames.length) and whose
    direction is [+1] or [-1] does not fault, leaves the committed index
    [currentFrameIdx] inside [0, frames.length), and leaves the local
    counter inside that range too whenever the callback stays scheduled
    (it is only on the stop of the End strategy, where nothing is
    committed or scheduled any more, that the discarded local counter
    equals [frames.length]). *)
Theorem animate_keeps_index_in_bounds
  (anim : Animation) (t : Z) (s : PlaybackState) :
  2 <= zlength (frames anim) ->
  0 <= frameIdx s < zlength (frames anim) ->
  0 <= currentFrameIdx s < zlength (frames anim) ->
  direction s = 1 \/ direction s = -1 ->
  exists s',
    animate anim t s = Ok s' /\
    0 <= currentFrameIdx s' < zlength (frames anim) /\
    (scheduled s' = true -> 0 <= frameIdx s' < zlength (frames anim)) /\
    (direction s' = 1 \/ direction s' = -1).
Proof.
  intros Hlen Hidx Hcur Hdir.
  destruct (js_index_in_range (frames anim) (frameIdx s) Hidx) as [f Hf].
  destruct (Z.lt_ge_cases (t - lastTime s) (duration f)) as [Hlt|Hge].
  - rewrite (animate_waits anim t s f Hf Hlt).
    eexists; split; [reflexivity|]. simpl. auto.
  - destruct (loopStrategy anim) eqn:Hls.
    + rewrite (animate_fires_freeze anim t s f Hls Hf Hge).
      eexists; split; [reflexivity|]. simpl.
      destruct (Z.leb_spec (zlength (frames anim)) (frameIdx s + 1));
        repeat split; try lia; auto.
    + rewrite (animate_fires_end anim t s f Hls Hf Hge).
      eexists; split; [reflexivity|].
      destruct (Z.leb_spec (zlength (frames anim)) (frameIdx s + 1));
        simpl; repeat split; try lia; auto; discriminate.
    + rewrite (animate_fires_loop anim t s f Hls Hf Hge).
      eexists; split; [reflexivity|]. simpl.
      pose proof (Z.rem_bound_pos (frameIdx s + 1) (zlength (frames anim))
                    ltac:(lia) ltac:(lia)) as Hrem.
      repeat split; try lia; auto.
    + rewrite (animate_fires_pingpong anim t s f Hls Hf Hge).
      eexists; split; [reflexivity|].
      destruct (Z.leb_spec (zlength (frames anim))
                  (frameIdx s + direction s));
        [|destruct (Z.ltb_spec (frameIdx s + direction s) 0)];
        simpl; repeat split; try lia; auto.
Qed.

(** C9 at the three-frame PingPong animation, bouncing off its last
    frame. *)
Lemma animate_keeps_index_in_bounds_witness :
  exists s',
    animate pingPong3 150
      {| frameIdx := 2; lastTime := 0; direction := 1;
         currentFrameIdx := 2; isPlaying := true; scheduled := true |}
    = Ok s' /\
    0 <= currentFrameIdx s' < zlength (frames pingPong3) /\
    (scheduled s' = true -> 0 <= frameIdx s' < zlength (frames pingPong3)) /\
    (direction s' = 1 \/ direction s' = -1).
Proof.
  apply animate_keeps_index_in_bounds.
  - vm_compute. discriminate.
  - vm_compute. split; [discriminate | reflexivity].
  - vm_compute. split; [discriminate | reflexivity].
  - left. reflexivity.
Defined.

(** The state in which Freeze holds the last frame. *)
Lemma frameTick_freeze_hold (anim : Animation) (tk : Tick)
  (s : PlaybackState) :
  loopStrategy anim = Freeze ->
  1 <= zlength (frames anim) ->
  frameIdx s = zlength (frames anim) - 1 ->
  currentFrameIdx s = zlength (frames anim) - 1 ->
  scheduled s = true ->
  exists s',
    frameTick anim tk s = Ok s' /\
    frameIdx s' = zlength (frames anim) - 1 /\
    currentFrameIdx s' = zlength (frames anim) - 1 /\
    isPlaying s' = isPlaying s /\
    scheduled s' = true.
Proof.
  intros Hls Hlen Hidx Hcur Hsch. unfold frameTick. rewrite Hsch.
  destruct (js_index_in_range (frames anim) (frameIdx s)) as [f Hf];
    [lia|].
  destruct (Z.lt_ge_cases (currentTime tk - lastTime s) (duration f))
    as [Hlt|Hge].
  - rewrite (animate_waits anim _ s f Hf Hlt).
    unfold depsChanged. simpl.
    rewrite Z.eqb_refl, Bool.eqb_reflx. simpl.
    eexists; split; [reflexivity|]. simpl. auto.
  - rewrite (animate_fires_freeze anim _ s f Hls Hf Hge).
    destruct (Z.leb_spec (zlength (frames anim)) (frameIdx s + 1)); [|lia].
    unfold depsChanged. simpl.
    rewrite Hcur, Z.eqb_refl, Bool.eqb_reflx. simpl.
    eexists; split; [reflexivity|]. simpl. auto.
Qed.

Lemma freeze_hold_run (anim : Animation) (ticks : list Tick) :
  loopStrategy anim = Freeze ->
  1 <= zlength (frames anim) ->
  forall s,
    frameIdx s = zlength (frames anim) - 1 ->
    currentFrameIdx s = zlength (frames anim) - 1 ->
    scheduled s = true ->
    trace anim ticks s
    = repeat (zlength (frames anim) - 1, isPlaying s) (List.length ticks) /\
    exists s',
      run anim ticks s = Ok s' /\
      currentFrameIdx s' = zlength (frames anim) - 1 /\
      isPlaying s' = isPlaying s /\
      scheduled s' = true.
Proof.
  intros Hls Hlen. induction ticks as [|tk rest IH]; intros s Hidx Hcur Hsch.
  - simpl. split; [reflexivity|]. exists s. auto.
  - destruct (frameTick_freeze_hold anim tk s Hls Hlen Hidx Hcur Hsch)
      as (s1 & Hstep & Hidx1 & Hcur1 & Hplay1 & Hsch1).
    destruct (IH s1 Hidx1 Hcur1 Hsch1) as [Htr (s2 & Hrun & H2)].
    simpl. rewrite Hstep. split.
    + rewrite Htr. unfold observe. now rewrite Hcur1, Hplay1.
    + exists s2. split; [exact Hrun|]. now rewrite <- Hplay1.
Qed.

(** C7. Under the Freeze strategy, for an animation with at least one
    frame, once the preview is on the last frame every further display
    frame leaves the committed index at [frames.length - 1], keeps the
    callback scheduled and leaves [isPlaying] as it was; and a
    three-frame Freeze animation started on frame 0 shows 1, 2, 2, 2, ..
    with [isPlaying] still true, over any stream of display frames whose
    first two let the frame's duration elapse. *)
Theorem freeze_holds_last_frame :
  (forall (anim : Animation) (ticks : list Tick) (s : PlaybackState),
      loopStrategy anim = Freeze ->
      1 <= zlength (frames anim) ->
      frameIdx s = zlength (frames anim) - 1 ->
      currentFrameIdx s = zlength (frames anim) - 1 ->
      scheduled s = true ->
      trace anim ticks s
      = repeat (zlength (frames anim) - 1, isPlaying s)
               (List.length ticks) /\
      exists s',
        run anim ticks s = Ok s' /\
        currentFrameIdx s' = zlength (frames anim) - 1 /\
        isPlaying s' = isPlaying s /\
        scheduled s' = true) /\
  (forall (nm : string) (f0 f1 f2 : AnimationFrame) (t0 : Z)
          (tk1 tk2 : Tick) (more : list Tick),
      duration f0 <= currentTime tk1 - t0 ->
      duration f1 <= currentTime tk2 - effectTime tk1 ->
      trace {| name := nm; frames := [f0; f1; f2];
               loopStrategy := Freeze |}
            (tk1 :: tk2 :: more) (started t0)
      = (1, true) :: (2, true) :: repeat (2, true) (List.length more)).
Proof.
  split.
  - intros anim ticks s Hls Hlen Hidx Hcur Hsch.
    now apply freeze_hold_run.
  - intros nm f0 f1 f2 t0 tk1 tk2 more H1 H2.
    set (anim := {| name := nm; frames := [f0; f1; f2];
                    loopStrategy := Freeze |}).
    set (s1 := {| frameIdx := 1; lastTime := effectTime tk1;
                  direction := 1; currentFrameIdx := 1;
                  isPlaying := true; scheduled := true |}).
    set (s2 := {| frameIdx := 2; lastTime := effectTime tk2;
                  direction := 1; currentFrameIdx := 2;
                  isPlaying := true; scheduled := true |}).
    assert (Hs1 : frameTick anim tk1 (started t0) = Ok s1).
    { unfold frameTick. simpl scheduled. cbv iota.
      rewrite (animate_fires_freeze anim _ (started t0) f0 eq_refl eq_refl)
        by exact H1.
      reflexivity. }
    assert (Hs2 : frameTick anim tk2 s1 = Ok s2).
    { unfold frameTick. simpl scheduled. cbv iota.
      rewrite (animate_fires_freeze anim _ s1 f1 eq_refl eq_refl)
        by exact H2.
      reflexivity. }
    cbn [trace]. rewrite Hs1, Hs2. unfold observe at 1 2. simpl.
    do 2 f_equal.
    destruct (freeze_hold_run anim more eq_refl
                ltac:(vm_compute; discriminate) s2
                eq_refl eq_refl eq_refl) as [Htr _].
    exact Htr.
Qed.

(** C7 at the three-frame Freeze animation of 150 ms frames, displayed
    every 200 time units. *)
Lemma freeze_holds_last_frame_witness :
  trace freeze3 [tickAt 1; tickAt 2; tickAt 3; tickAt 4; tickAt 5]
        (started 0)
  = [(1, true); (2, true); (2, true); (2, true); (2, true)] /\
  trace freeze3 [tickAt 3; tickAt 4]
        {| frameIdx := 2; lastTime := 401; direction := 1;
           currentFrameIdx := 2; isPlaying := true; scheduled := true |}
  = [(2, true); (2, true)].
Proof.
  destruct freeze_holds_last_frame as [Hhold Hseq]. split.
  - apply (Hseq "Idle"%string (step 0 150) (step 1 150) (step 2 150) 0
             (tickAt 1) (tickAt 2) [tickAt 3; tickAt 4; tickAt 5]).
    + vm_compute. discriminate.
    + vm_compute. discriminate.
  - destruct (Hhold freeze3 [tickAt 3; tickAt 4]
                {| frameIdx := 2; lastTime := 401; direction := 1;
                   currentFrameIdx := 2; isPlaying := true;
                   scheduled := true |}) as [Htr _].
    + reflexivity.
    + vm_compute. discriminate.
    + reflexivity.
    + reflexivity.
    + reflexivity.
    + exact Htr.
Defined.

(** No callback pending: display frames change nothing. *)
Lemma frameTick_unscheduled (anim : Animation) (tk : Tick)
  (s : PlaybackState) :
  scheduled s = false -> frameTick anim tk s = Ok s.
Proof. intros H. unfold frameTick. now rewrite H. Qed.

Lemma run_unscheduled (anim : Animation) (ticks : list Tick)
  (s : PlaybackState) :
  scheduled s = false ->
  run anim ticks s = Ok s /\
  trace anim ticks s = repeat (observe s) (List.length ticks).
Proof.
  intros H. induction ticks as [|tk rest [IHr IHt]]; simpl.
  - auto.
  - rewrite (frameTick_unscheduled anim tk s H). split; [exact IHr|].
    now rewrite IHt.
Qed.

Lemma frameTick_end_stop (anim : Animation) (tk : Tick) (s : PlaybackState)
  (f : AnimationFrame) :
  loopStrategy anim = End ->
  frameIdx s = zlength (frames anim) - 1 ->
  isPlaying s = true ->
  scheduled s = true ->
  js_index (frames anim) (frameIdx s) = Some f ->
  duration f <= currentTime tk - lastTime s ->
  frameTick anim tk s
  = Ok {| frameIdx := zlength (frames anim);
          lastTime := currentTime tk;
          direction := direction s;
          currentFrameIdx := currentFrameIdx s;
          isPlaying := false;
          scheduled := false |}.
Proof.
  intros Hls Hidx Hplay Hsch Hf Hge. unfold frameTick. rewrite Hsch.
  rewrite (animate_fires_end anim _ s f Hls Hf Hge).
  destruct (Z.leb_spec (zlength (frames anim)) (frameIdx s + 1)); [|lia].
  unfold depsChanged, stop, playbackEffect. simpl.
  rewrite Z.eqb_refl, Hplay. simpl.
  do 2 f_equal. lia.
Qed.

(** C5. Under the End strategy, when the advance from the last frame
    fires, [isPlaying] is cleared, the committed index stays at
    [frames.length - 1] and no callback is scheduled any more, so that
    any further display frames leave the state as it is; a three-frame
    End animation started on frame 0 therefore shows 1, 2, then stops on
    2 and stays there. *)
Theorem end_stops_on_last_frame :
  (forall (anim : Animation) (tk : Tick) (s : PlaybackState)
          (f : AnimationFrame) (more : list Tick),
      loopStrategy anim = End ->
      frameIdx s = zlength (frames anim) - 1 ->
      currentFrameIdx s = zlength (frames anim) - 1 ->
      isPlaying s = true ->
      scheduled s = true ->
      js_index (frames anim) (frameIdx s) = Some f ->
      duration f <= currentTime tk - lastTime s ->
      exists s',
        frameTick anim tk s = Ok s' /\
        isPlaying s' = false /\
        currentFrameIdx s' = zlength (frames anim) - 1 /\
        scheduled s' = false /\
        run anim more s' = Ok s' /\
        trace anim more s'
        = repeat (zlength (frames anim) - 1, false) (List.length more)) /\
  (forall (nm : string) (f0 f1 f2 : AnimationFrame) (t0 : Z)
          (tk1 tk2 tk3 : Tick) (more : list Tick),
      duration f0 <= currentTime tk1 - t0 ->
      duration f1 <= currentTime tk2 - effectTime tk1 ->
      duration f2 <= currentTime tk3 - effectTime tk2 ->
      trace {| name := nm; frames := [f0; f1; f2]; loopStrategy := End |}
            (tk1 :: tk2 :: tk3 :: more) (started t0)
      = (1, true) :: (2, true) :: (2, false)
          :: repeat (2, false) (List.length more)).
Proof.
  split.
  - intros anim tk s f more Hls Hidx Hcur Hplay Hsch Hf Hge.
    eexists. split.
    + apply (frameTick_end_stop anim tk s f); assumption.
    + simpl. repeat split; try assumption; try reflexivity.
      * now apply run_unscheduled.
      * match goal with
        | |- trace anim more ?st = _ =>
            destruct (run_unscheduled anim more st eq_refl) as [_ Htr]
        end.
        rewrite Htr. unfold observe. simpl. now rewrite Hcur.
  - intros nm f0 f1 f2 t0 tk1 tk2 tk3 more H1 H2 H3.
    set (anim := {| name := nm; frames := [f0; f1; f2];
                    loopStrategy := End |}).
    set (s1 := {| frameIdx := 1; lastTime := effectTime tk1;
                  direction := 1; currentFrameIdx := 1;
                  isPlaying := true; scheduled := true |}).
    set (s2 := {| frameIdx := 2; lastTime := effectTime tk2;
                  direction := 1; currentFrameIdx := 2;
                  isPlaying := true; scheduled := true |}).
    set (s3 := {| frameIdx := 3; lastTime := currentTime tk3;
                  direction := 1; currentFrameIdx := 2;
                  isPlaying := false; scheduled := false |}).
    assert (Hs1 : frameTick anim tk1 (started t0) = Ok s1).
    { unfold frameTick. simpl scheduled. cbv iota.
      rewrite (animate_fires_end anim _ (started t0) f0 eq_refl eq_refl)
        by exact H1.
      reflexivity. }
    assert (Hs2 : frameTick anim tk2 s1 = Ok s2).
    { unfold frameTick. simpl scheduled. cbv iota.
      rewrite (animate_fires_end anim _ s1 f1 eq_refl eq_refl)
        by exact H2.
      reflexivity. }
    assert (Hs3 : frameTick anim tk3 s2 = Ok s3).
    { apply (frameTick_end_stop anim tk3 s2 f2); try reflexivity.
      exact H3. }
    cbn [trace]. rewrite Hs1, Hs2, Hs3. unfold observe at 1 2 3. simpl.
    do 3 f_equal.
    destruct (run_unscheduled anim more s3 eq_refl) as [_ Htr].
    exact Htr.
Qed.

(** C5 at the three-frame End animation of 150 ms frames, displayed
    every 200 time units. *)
Lemma end_stops_on_last_frame_witness :
  trace end3 [tickAt 1; tickAt 2; tickAt 3; tickAt 4; tickAt 5] (started 0)
  = [(1, true); (2, true); (2, false); (2, false); (2, false)] /\
  exists s',
    frameTick end3 (tickAt 3)
      {| frameIdx := 2; lastTime := 401; direction := 1;
         currentFrameIdx := 2; isPlaying := true; scheduled := true |}
    = Ok s' /\
    isPlaying s' = false /\
    currentFrameIdx s' = zlength (frames end3) - 1 /\
    scheduled s' = false /\
    run end3 [tickAt 4; tickAt 5] s' = Ok s' /\
    trace end3 [tickAt 4; tickAt 5] s'
    = repeat (zlength (frames end3) - 1, false) 2.
Proof.
  destruct end_stops_on_last_frame as [Hstop Hseq]. split.
  - apply (Hseq "Die"%string (step 0 150) (step 1 150) (step 2 150) 0
             (tickAt 1) (tickAt 2) (tickAt 3) [tickAt 4; tickAt 5]).
    + vm_compute. discriminate.
    + vm_compute. discriminate.
    + vm_compute. discriminate.
  - apply (Hstop end3 (tickAt 3) _ (step 2 150) [tickAt 4; tickAt 5]).
    + reflexivity.
    + reflexivity.
    + reflexivity.
    + reflexivity.
    + reflexivity.
    + reflexivity.
    + vm_compute. discriminate.
Defined.

(** The bounce of PingPong off the last frame: the counter becomes
    [frames.length - 2] and the direction [-1]. *)
Lemma pingpong_bounce (anim : Animation) (t : Z) (s : PlaybackState)
  (f : AnimationFrame) :
  loopStrategy anim = PingPong ->
  frameIdx s = zlength (frames anim) - 1 ->
  direction s = 1 ->
  js_index (frames anim) (frameIdx s) = Some f ->
  duration f <= t - lastTime s ->
  animate anim t s = Ok (commit s t (zlength (frames anim) - 2) (-1)).
Proof.
  intros Hls Hidx Hdir Hf Hge.
  rewrite (animate_fires_pingpong anim t s f Hls Hf Hge).
  destruct (Z.leb_spec (zlength (frames anim)) (frameIdx s + direction s));
    [reflexivity | lia].
Qed.

(** C2, the behaviour of the code. For a PingPong animation with
    exactly one frame, the first advance (as soon as the frame's duration
    has elapsed) bounces to [frames.length - 2 = -1]: the callback
    commits [currentFrameIdx = -1] with direction [-1], below index 0. *)
Theorem pingpong_single_frame_underflows
  (nm : string) (f : AnimationFrame) (t0 : Z) :
  animate {| name := nm; frames := [f]; loopStrategy := PingPong |}
          (t0 + duration f) (started t0)
  = Ok {| frameIdx := -1; lastTime := t0 + duration f; direction := -1;
          currentFrameIdx := -1; isPlaying := true; scheduled := true |}.
Proof.
  rewrite (pingpong_bounce
             {| name := nm; frames := [f]; loopStrategy := PingPong |}
             (t0 + duration f) (started t0) f
             eq_refl eq_refl eq_refl eq_refl).
  - reflexivity.
  - simpl. lia.
Qed.

(** C6, as stated, fails: frames added while the default duration is
    [0] keep that duration, and such a frame advances on a callback with
    no elapsed time at all, so no positive floor is applied to the
    duration. *)
Lemma zero_duration_is_not_clamped :
  AnimationModel.addFrameToAnimation
    [ {| name := "Walk"; frames := [step 0 0]; loopStrategy := Loop |} ]
    0 0 1
  = Ok [loopZero] /\
  animate loopZero 0 (started 0)
  = Ok {| frameIdx := 1; lastTime := 0; direction := 1;
          currentFrameIdx := 1; isPlaying := true; scheduled := true |} /\
  ~ (exists floor : Z,
        0 < floor /\
        forall t : Z,
          t - lastTime (started 0) < Z.max 0 floor ->
          animate loopZero t (started 0) = Ok (reschedule (started 0))).
Proof.
  split; [reflexivity|]. split; [reflexivity|].
  intros (floor & Hpos & Hclamp).
  specialize (Hclamp 0). simpl in Hclamp.
  assert (H : 0 - 0 < Z.max 0 floor) by lia.
  specialize (Hclamp H). discriminate Hclamp.
Qed.

(** C6, amended. The callback uses each duration as stored: it waits
    while [currentTime - lastTime] is below the current frame's duration
    and otherwise performs one transition, either one commit or the stop
    of End, setting [lastTime] to the callback's timestamp; a frame whose
    duration is zero or negative therefore advances on every callback
    whose timestamp is not before [lastTime]. *)
Theorem animate_uses_stored_duration
  (anim : Animation) (t : Z) (s : PlaybackState) (f : AnimationFrame) :
  js_index (frames anim) (frameIdx s) = Some f ->
  (t - lastTime s < duration f -> animate anim t s = Ok (reschedule s)) /\
  (duration f <= t - lastTime s ->
   exists s',
     animate anim t s = Ok s' /\
     lastTime s' = t /\
     ((exists idx dir, s' = commit s t idx dir)
      \/ s' = stop s t (frameIdx s + 1))) /\
  (duration f <= 0 -> lastTime s <= t ->
   exists s', animate anim t s = Ok s' /\ lastTime s' = t).
Proof.
  intros Hf.
  assert (Hfire : duration f <= t - lastTime s ->
                  exists s',
                    animate anim t s = Ok s' /\
                    lastTime s' = t /\
                    ((exists idx dir, s' = commit s t idx dir)
                     \/ s' = stop s t (frameIdx s + 1))).
  { intros Hge. destruct (loopStrategy anim) eqn:Hls.
    - rewrite (animate_fires_freeze anim t s f Hls Hf Hge).
      eexists; split; [reflexivity|]. split; [reflexivity|]. left. eauto.
    - rewrite (animate_fires_end anim t s f Hls Hf Hge).
      eexists; split; [reflexivity|].
      destruct (zlength (frames anim) <=? frameIdx s + 1);
        (split; [reflexivity|]); [right | left]; eauto.
    - rewrite (animate_fires_loop anim t s f Hls Hf Hge).
      eexists; split; [reflexivity|]. split; [reflexivity|]. left. eauto.
    - rewrite (animate_fires_pingpong anim t s f Hls Hf Hge).
      eexists; split; [reflexivity|].
      destruct (zlength (frames anim) <=? frameIdx s + direction s);
        [|destruct (frameIdx s + direction s <? 0)];
        (split; [reflexivity|]); left; eauto. }
  split; [|split].
  - intros Hlt. now apply (animate_waits anim t s f).
  - exact Hfire.
  - intros Hd Ht. destruct Hfire as (s' & Ha & Hl & _); [lia|].
    exists s'. auto.
Qed.

(** C6 amended, at the two-frame Loop animation whose frames have
    duration [0]. *)
Lemma animate_uses_stored_duration_witness :
  exists s', animate loopZero 0 (started 0) = Ok s' /\ lastTime s' = 0.
Proof.
  destruct (animate_uses_stored_duration loopZero 0 (started 0) (step 0 0)
              eq_refl) as (_ & _ & H).
  apply H.
  - simpl. lia.
  - simpl. lia.
Defined.

End PlaybackTheorems.

(** ** Code generator *)

Section CodeGenTheorems.

Import CodeGen Samples.
Local Open Scope string_scope.

Lemma zlength_zero_iff {A : Type} (arr : list A) :
  (zlength arr =? 0)%Z = true <-> arr = [].
Proof.
  unfold zlength. destruct arr as [|a rest]; simpl.
  - split; reflexivity.
  - split; discriminate.
Qed.

Lemma generateCode_no_image (st : AppState) :
  image st = None -> generateCode st = "".
Proof. intros H. unfold generateCode. now rewrite H. Qed.

Lemma generateCode_no_frames (st : AppState) :
  frames st = [] -> generateCode st = "".
Proof.
  intros H. unfold generateCode. rewrite H.
  now destruct (image st).
Qed.

Lemma generateCode_nonempty_state (st : AppState) (img : Image) :
  image st = Some img -> frames st <> [] ->
  generateCode st
  = emitAnimations st
      match parseMode st with
      | Some grid => emitGrid (gridConfig st) (emitHeader st)
      | Some sourceview => emitSourceViews (sourceViews st) (emitHeader st)
      | None => emitHeader st
      end.
Proof.
  intros Himg Hfr. unfold generateCode. rewrite Himg.
  destruct (zlength (frames st) =? 0)%Z eqn:E; [|reflexivity].
  apply zlength_zero_iff in E. contradiction.
Qed.

(** C10. The generator returns the empty text when no image is loaded
    or the frame list is empty, and its output is a function of the
    model state alone: two states that agree on whether an image is
    loaded, on whether there are frames, on the parse mode, the grid
    configuration, the source views, the animations, the group name and
    the image path yield the same text, whatever the rest of the
    application state (selection, playback, default duration) is. *)
Theorem generateCode_empty_and_deterministic :
  (forall st : AppState,
      image st = None \/ frames st = [] -> generateCode st = "") /\
  (forall st1 st2 : AppState,
      (image st1 = None <-> image st2 = None) ->
      (frames st1 = [] <-> frames st2 = []) ->
      parseMode st1 = parseMode st2 ->
      gridConfig st1 = gridConfig st2 ->
      sourceViews st1 = sourceViews st2 ->
      animations st1 = animations st2 ->
      animationGroupName st1 = animationGroupName st2 ->
      imagePath st1 = imagePath st2 ->
      generateCode st1 = generateCode st2).
Proof.
  split.
  - intros st [H|H].
    + now apply generateCode_no_image.
    + now apply generateCode_no_frames.
  - intros st1 st2 Himg Hfr Hpm Hgc Hsv Han Hgn Hip.
    destruct (image st1) as [img1|] eqn:E1.
    + destruct (image st2) as [img2|] eqn:E2.
      * destruct (frames st1) as [|fr1 rest1] eqn:F1.
        -- rewrite (generateCode_no_frames st1 F1).
           symmetry. apply generateCode_no_frames. now apply Hfr.
        -- assert (F2 : frames st2 <> []).
           { intros F2. apply Hfr in F2. discriminate. }
           rewrite (generateCode_nonempty_state st1 img1 E1)
             by (rewrite F1; discriminate).
           rewrite (generateCode_nonempty_state st2 img2 E2 F2).
           unfold emitAnimations, emitHeader.
           now rewrite Hpm, Hgc, Hsv, Han, Hgn, Hip.
      * destruct Himg as [_ Himg]. specialize (Himg eq_refl). discriminate.
    + rewrite (generateCode_no_image st1 E1).
      symmetry. apply generateCode_no_image. now apply Himg.
Qed.

(** C10 at a state without an image, and at two states that differ in
    the selected animation and the playing flag only. *)
Lemma generateCode_empty_and_deterministic_witness :
  generateCode (appWith None grid2x3 [] None false) = "" /\
  generateCode
    (appWith (Some sheet) grid2x3
       (FrameResolver.parseGridFrames (Some sheet) grid2x3 [])
       (Some 0%Z) true)
  = generateCode
      (appWith (Some sheet) grid2x3
         (FrameResolver.parseGridFrames (Some sheet) grid2x3 [])
         None false).
Proof.
  destruct generateCode_empty_and_deterministic as [Hempty Hsame]. split.
  - apply Hempty. left. reflexivity.
  - apply Hsame; reflexivity.
Defined.

(** *** Substrings of the emitted text *)

Lemma append_assoc (a b c : string) : (a ++ b) ++ c = a ++ (b ++ c).
Proof. induction a as [|ch a IH]; simpl; [reflexivity | now rewrite IH]. Qed.



















(** The text of some numbers, as the template literal prints them:
    all digits up to [2^53], then the shortest digits that identify the
    double, and exponent notation from [1e21] on. *)
Example num_examples :
  num 16 = "16" /\ num (-3) = "-3" /\
  num (2 ^ 53) = "9007199254740992" /\
  num (2 ^ 53 + 1) = "9007199254740992" /\
  num (2 ^ 64) = "18446744073709552000" /\
  num (10 ^ 21) = "1e+21" /\
  num (- 2 ^ 70) = "-1.1805916207174113e+21".
Proof. vm_compute. repeat split. Qed.




(** *** The grid branch *)

Lemma emitGrid_append (gc : GridConfig) (code : string) :
  emitGrid gc code = code ++ emitGrid gc "".
Proof.
  unfold emitGrid. cbv zeta.
  destruct (hasSpacing gc); rewrite !append_assoc; reflexivity.
Qed.










End CodeGenTheorems.

(** ** Preview playback, continued *)

Section PlaybackExtras.

Import Playback PlaybackRuns Samples MoreSamples.

(** A commit under a playing animation with frames: the display frame
    ends on the committed step, with a fresh closure when the step
    changed. *)
Lemma frameTick_of_commit (anim : Animation) (tk : Tick)
  (s : PlaybackState) (idx dir : Z) :
  scheduled s = true -> isPlaying s = true ->
  1 <= zlength (frames anim) ->
  animate anim (currentTime tk) s = Ok (commit s (currentTime tk) idx dir) ->
  exists s',
    frameTick anim tk s = Ok s' /\
    frameIdx s' = idx /\ currentFrameIdx s' = idx /\
    isPlaying s' = true /\ scheduled s' = true /\
    direction s' = (if idx =? currentFrameIdx s then dir else 1).
Proof.
  intros Hsch Hplay Hlen Han. unfold frameTick. rewrite Hsch, Han.
  unfold depsChanged. simpl. rewrite Bool.eqb_reflx. simpl.
  rewrite orb_false_r.
  destruct (Z.eqb_spec idx (currentFrameIdx s)) as [E|E]; simpl.
  - eexists; split; [reflexivity|]. simpl. auto.
  - unfold playbackEffect. simpl. rewrite Hplay. simpl.
    destruct (Z.eqb_spec (zlength (frames anim)) 0) as [Z0|_]; [lia|].
    eexists; split; [reflexivity|]. simpl. auto.
Qed.

(** X1. Apart from the last step and from a PingPong run going
    backwards, the four strategies do the same thing: the counter and
    the committed index advance by one. *)
Theorem strategies_agree_mid_sequence
  (anim : Animation) (t : Z) (s : PlaybackState) (f : AnimationFrame) :
  0 <= frameIdx s -> frameIdx s + 1 < zlength (frames anim) ->
  direction s = 1 ->
  js_index (frames anim) (frameIdx s) = Some f ->
  duration f <= t - lastTime s ->
  animate anim t s = Ok (commit s t (frameIdx s + 1) 1).
Proof.
  intros Hlo Hhi Hdir Hf Hge.
  destruct (loopStrategy anim) eqn:Hls.
  - rewrite (animate_fires_freeze anim t s f Hls Hf Hge), Hdir.
    destruct (Z.leb_spec (zlength (frames anim)) (frameIdx s + 1));
      [lia | reflexivity].
  - rewrite (animate_fires_end anim t s f Hls Hf Hge), Hdir.
    destruct (Z.leb_spec (zlength (frames anim)) (frameIdx s + 1));
      [lia | reflexivity].
  - rewrite (animate_fires_loop anim t s f Hls Hf Hge), Hdir.
    rewrite Z.rem_small by lia. reflexivity.
  - rewrite (animate_fires_pingpong anim t s f Hls Hf Hge), Hdir.
    destruct (Z.leb_spec (zlength (frames anim)) (frameIdx s + 1)); [lia|].
    destruct (Z.ltb_spec (frameIdx s + 1) 0); [lia | reflexivity].
Qed.

Lemma strategies_agree_mid_sequence_witness :
  animate pingPong3 150 (started 0) = Ok (commit (started 0) 150 1 1).
Proof.
  apply (strategies_agree_mid_sequence pingPong3 150 (started 0)
           (step 0 150)).
  - simpl. lia.
  - vm_compute. reflexivity.
  - reflexivity.
  - reflexivity.
  - simpl. lia.
Defined.

(** X2. The callback throws exactly when its counter is outside the
    animation's steps. *)
Theorem animate_throws_iff_out_of_range
  (anim : Animation) (t : Z) (s : PlaybackState) :
  animate anim t s = TypeError
  <-> (frameIdx s < 0 \/ zlength (frames anim) <= frameIdx s).
Proof.
  split.
  - intros Hthrow.
    destruct (Z.lt_ge_cases (frameIdx s) 0) as [Hneg|Hnn]; [now left|].
    destruct (Z.lt_ge_cases (frameIdx s) (zlength (frames anim)))
      as [Hin|Hout]; [|right; lia].
    exfalso.
    destruct (js_index_in_range (frames anim) (frameIdx s)) as [f Hf];
      [lia|].
    unfold animate in Hthrow. rewrite Hf in Hthrow.
    destruct (duration f <=? t - lastTime s); [|discriminate].
    destruct (loopStrategy anim);
      repeat match type of Hthrow with
             | context [if ?c then _ else _] => destruct c
             end; discriminate.
  - apply animate_undefined_frame.
Qed.

Lemma fires_animate_loop (anim : Animation) (tk : Tick) (s : PlaybackState) :
  loopStrategy anim = Loop ->
  0 <= frameIdx s < zlength (frames anim) ->
  fires anim tk s ->
  animate anim (currentTime tk) s
  = Ok (commit s (currentTime tk)
          (Z.rem (frameIdx s + 1) (zlength (frames anim))) (direction s)).
Proof.
  intros Hls Hin Hfire.
  destruct (js_index_in_range (frames anim) (frameIdx s) Hin) as [f Hf].
  apply (animate_fires_loop anim _ s f Hls Hf). now apply Hfire.
Qed.

Lemma loop_step (anim : Animation) (tk : Tick) (s : PlaybackState) (i : Z) :
  loopStrategy anim = Loop ->
  1 <= zlength (frames anim) ->
  0 <= i < zlength (frames anim) ->
  frameIdx s = i -> currentFrameIdx s = i ->
  isPlaying s = true -> scheduled s = true ->
  fires anim tk s ->
  exists s',
    frameTick anim tk s = Ok s' /\
    frameIdx s' = (i + 1) mod zlength (frames anim) /\
    currentFrameIdx s' = (i + 1) mod zlength (frames anim) /\
    isPlaying s' = true /\ scheduled s' = true.
Proof.
  intros Hls Hlen Hi Hidx Hcur Hplay Hsch Hfire.
  assert (Hin : 0 <= frameIdx s < zlength (frames anim))
    by (rewrite Hidx; exact Hi).
  pose proof (fires_animate_loop anim tk s Hls Hin Hfire) as Han.
  destruct (frameTick_of_commit anim tk s _ _ Hsch Hplay Hlen Han)
    as (s' & Hstep & H1 & H2 & H3 & H4 & _).
  exists s'. rewrite Hidx in H1, H2.
  rewrite Z.rem_mod_nonneg in H1, H2 by lia. auto.
Qed.

(** X3. Under the Loop strategy the preview cycles: from step [i], a
    stream of display frames that each come once the duration of the
    step then current has elapsed shows [(i + 1) mod n],
    [(i + 2) mod n], .. for [n = frames.length], never throws and never
    stops playing.  The condition on the stream is one on the times of
    its display frames; that no callback throws is part of the
    conclusion. *)
Theorem loop_cycles (anim : Animation) (ticks : list Tick) :
  loopStrategy anim = Loop ->
  1 <= zlength (frames anim) ->
  forall (s : PlaybackState) (i : Z),
    0 <= i < zlength (frames anim) ->
    frameIdx s = i -> currentFrameIdx s = i ->
    isPlaying s = true -> scheduled s = true ->
    allFire anim ticks s ->
    trace anim ticks s
    = map (fun k => ((i + Z.of_nat k) mod zlength (frames anim), true))
          (seq 1 (List.length ticks)) /\
    exists s',
      run anim ticks s = Ok s' /\
      currentFrameIdx s'
      = (i + Z.of_nat (List.length ticks)) mod zlength (frames anim) /\
      isPlaying s' = true.
Proof.
  intros Hls Hlen. induction ticks as [|tk rest IH];
    intros s i Hi Hidx Hcur Hplay Hsch Hall.
  - simpl. split; [reflexivity|]. exists s.
    rewrite Z.add_0_r, Z.mod_small by lia. auto.
  - destruct Hall as [Hfire Hrest].
    destruct (loop_step anim tk s i Hls Hlen Hi Hidx Hcur Hplay Hsch Hfire)
      as (s1 & Hstep & Hidx1 & Hcur1 & Hplay1 & Hsch1).
    rewrite Hstep in Hrest.
    assert (Hi1 : 0 <= (i + 1) mod zlength (frames anim)
                  < zlength (frames anim))
      by (apply Z.mod_pos_bound; lia).
    destruct (IH s1 _ Hi1 Hidx1 Hcur1 Hplay1 Hsch1 Hrest)
      as [Htr (s2 & Hrun & Hcur2 & Hplay2)].
    cbn [trace run List.length]. rewrite Hstep. split.
    + rewrite Htr. unfold observe. rewrite Hcur1, Hplay1.
      cbn [seq map]. f_equal.
      rewrite <- (seq_shift (List.length rest) 1), map_map.
      apply map_ext. intros k. f_equal.
      rewrite Zplus_mod_idemp_l. f_equal. lia.
    + exists s2. split; [exact Hrun|]. split; [|exact Hplay2].
      rewrite Hcur2, Zplus_mod_idemp_l. f_equal. lia.
Qed.

(** X3 at the four-frame Loop animation: 1, 2, 3, 0, 1 after the
    initial 0. *)
Lemma loop_cycles_witness :
  trace loop4 [tickAt 1; tickAt 2; tickAt 3; tickAt 4; tickAt 5] (started 0)
  = [(1, true); (2, true); (3, true); (0, true); (1, true)].
Proof.
  destruct (loop_cycles loop4
              [tickAt 1; tickAt 2; tickAt 3; tickAt 4; tickAt 5]
              eq_refl ltac:(vm_compute; discriminate) (started 0) 0)
    as [Htr _].
  - vm_compute. split; [discriminate | reflexivity].
  - reflexivity.
  - reflexivity.
  - reflexivity.
  - reflexivity.
  - cbn [allFire]. unfold fires.
    repeat (split;
            [intros f Hf; vm_compute in Hf; injection Hf as <-;
             vm_compute; discriminate|];
            cbn).
    exact I.
  - exact Htr.
Defined.

Lemma fresh_in_range (anim : Animation) (s : PlaybackState) (i : Z) :
  fresh i s -> 0 <= i < zlength (frames anim) ->
  exists f, js_index (frames anim) (frameIdx s) = Some f.
Proof.
  intros (Hidx & _) Hi. apply js_index_in_range. now rewrite Hidx.
Qed.

(** The two steps of PingPong next to the end, each followed by the
    playback effect, which starts a closure with [direction = 1]. *)
Lemma pingpong_step_near_end (anim : Animation) (tk : Tick)
  (s : PlaybackState) (atEnd : bool) :
  loopStrategy anim = PingPong ->
  2 <= zlength (frames anim) ->
  fresh (if atEnd then zlength (frames anim) - 1
         else zlength (frames anim) - 2) s ->
  fires anim tk s ->
  exists s',
    frameTick anim tk s = Ok s' /\
    fresh (if atEnd then zlength (frames anim) - 2
           else zlength (frames anim) - 1) s'.
Proof.
  intros Hls Hlen Hfresh Hfire.
  assert (Hin : 0 <= (if atEnd then zlength (frames anim) - 1
                      else zlength (frames anim) - 2)
                < zlength (frames anim)) by (destruct atEnd; lia).
  destruct (fresh_in_range anim s _ Hfresh Hin) as [f Hf].
  pose proof (Hfire f Hf) as Hge.
  destruct Hfresh as (Hidx & Hcur & Hdir & Hplay & Hsch).
  pose proof (animate_fires_pingpong anim _ s f Hls Hf Hge) as Han.
  rewrite Hidx, Hdir in Han.
  destruct atEnd.
  - destruct (Z.leb_spec (zlength (frames anim))
                (zlength (frames anim) - 1 + 1)); [|lia].
    destruct (frameTick_of_commit anim tk s _ _ Hsch Hplay
                ltac:(lia) Han) as (s' & Hstep & H1 & H2 & H3 & H4 & H5).
    exists s'. split; [exact Hstep|]. unfold fresh.
    rewrite Hcur in H5.
    destruct (Z.eqb_spec (zlength (frames anim) - 2)
                (zlength (frames anim) - 1)); [lia|]. auto.
  - destruct (Z.leb_spec (zlength (frames anim))
                (zlength (frames anim) - 2 + 1)); [lia|].
    destruct (Z.ltb_spec (zlength (frames anim) - 2 + 1) 0); [lia|].
    replace (zlength (frames anim) - 2 + 1)
      with (zlength (frames anim) - 1) in Han by lia.
    destruct (frameTick_of_commit anim tk s _ _ Hsch Hplay
                ltac:(lia) Han) as (s' & Hstep & H1 & H2 & H3 & H4 & H5).
    exists s'. split; [exact Hstep|]. unfold fresh.
    rewrite Hcur in H5.
    destruct (Z.eqb_spec (zlength (frames anim) - 1)
                (zlength (frames anim) - 2)); [lia|]. auto.
Qed.

Lemma pingpong_near_end_run (anim : Animation) (ticks : list Tick) :
  loopStrategy anim = PingPong ->
  2 <= zlength (frames anim) ->
  forall (s : PlaybackState) (atEnd : bool),
    fresh (if atEnd then zlength (frames anim) - 1
           else zlength (frames anim) - 2) s ->
    allFire anim ticks s ->
    Forall (fun o => zlength (frames anim) - 2 <= fst o) (trace anim ticks s)
    /\ exists s',
         run anim ticks s = Ok s' /\
         fresh (if Bool.eqb atEnd (Nat.even (List.length ticks))
                then zlength (frames anim) - 1
                else zlength (frames anim) - 2) s'.
Proof.
  intros Hls Hlen. induction ticks as [|tk rest IH];
    intros s atEnd Hfresh Hall.
  - simpl. split; [constructor|]. exists s. split; [reflexivity|].
    now destruct atEnd.
  - destruct Hall as [Hfire Hrest].
    destruct (pingpong_step_near_end anim tk s atEnd Hls Hlen Hfresh Hfire)
      as (s1 & Hstep & Hfresh1).
    rewrite Hstep in Hrest.
    destruct (IH s1 (negb atEnd)) as [Htr (s2 & Hrun & Hfresh2)].
    + now destruct atEnd.
    + exact Hrest.
    + cbn [trace run]. rewrite Hstep. split.
      * constructor; [|exact Htr].
        unfold observe. simpl.
        destruct Hfresh1 as (_ & Hc & _). rewrite Hc.
        destruct atEnd; lia.
      * exists s2. split; [exact Hrun|].
        replace (Bool.eqb atEnd (Nat.even (List.length (tk :: rest))))
          with (Bool.eqb (negb atEnd) (Nat.even (List.length rest)));
          [exact Hfresh2|].
        cbn [List.length]. rewrite Nat.even_succ, <- Nat.negb_even.
        now destruct atEnd, (Nat.even (List.length rest)).
Qed.

(** X4. PingPong never plays back towards the first frame in the
    preview: the playback effect runs again after every committed step
    and its new closure starts with [direction = 1], so from the last
    step [n - 1] of an animation with [n >= 2] steps, over display
    frames that each come once the duration of the step then current
    has elapsed, the preview goes to [n - 2], back to [n - 1], and so
    on; no callback throws and no committed index is below [n - 2]. *)
Theorem pingpong_bounces_between_last_two
  (anim : Animation) (ticks : list Tick) (s : PlaybackState) :
  loopStrategy anim = PingPong ->
  2 <= zlength (frames anim) ->
  fresh (zlength (frames anim) - 1) s ->
  allFire anim ticks s ->
  Forall (fun o => zlength (frames anim) - 2 <= fst o) (trace anim ticks s)
  /\ exists s',
       run anim ticks s = Ok s' /\
       fresh (if Nat.even (List.length ticks)
              then zlength (frames anim) - 1
              else zlength (frames anim) - 2) s'.
Proof.
  intros Hls Hlen Hfresh Hall.
  destruct (pingpong_near_end_run anim ticks Hls Hlen s true Hfresh Hall)
    as [Htr (s' & Hrun & Hfresh')].
  split; [exact Htr|]. exists s'. split; [exact Hrun|].
  now destruct (Nat.even (List.length ticks)).
Qed.

(** X4 at the three-frame PingPong animation from its last step: the
    preview shows 1, 2, 1 and never 0. *)
Lemma pingpong_bounces_between_last_two_witness :
  Forall (fun o => zlength (frames pingPong3) - 2 <= fst o)
    (trace pingPong3 [tickAt 1; tickAt 2; tickAt 3] idle) /\
  trace pingPong3 [tickAt 1; tickAt 2; tickAt 3] idle
  = [(1, true); (2, true); (1, true)].
Proof.
  split; [|reflexivity].
  apply (pingpong_bounces_between_last_two pingPong3
           [tickAt 1; tickAt 2; tickAt 3] idle).
  - reflexivity.
  - vm_compute. discriminate.
  - repeat split.
  - cbn [allFire]. unfold fires.
    repeat (split;
            [intros f Hf; vm_compute in Hf; injection Hf as <-;
             vm_compute; discriminate|];
            cbn).
    exact I.
Defined.

(** X5. A paused or empty animation is not played: the playback effect
    schedules nothing, so no display frame changes the state or throws;
    for an animation without steps the guard matters, since the callback
    itself would throw on any call. *)
Theorem not_playable_is_never_scheduled
  (anim : Animation) (now : Z) (s : PlaybackState) (ticks : list Tick) :
  isPlaying s = false \/ zlength (frames anim) = 0 ->
  run anim ticks (playbackEffect anim now s)
  = Ok (playbackEffect anim now s) /\
  scheduled (playbackEffect anim now s) = false /\
  (zlength (frames anim) = 0 ->
   forall t s0, animate anim t s0 = TypeError).
Proof.
  intros H.
  assert (Hsch : scheduled (playbackEffect anim now s) = false).
  { unfold playbackEffect. destruct (isPlaying s); simpl.
    - destruct H as [H|H]; [discriminate|]. now rewrite H.
    - reflexivity. }
  split; [|split].
  - now apply run_unscheduled.
  - exact Hsch.
  - intros Hz t s0. apply animate_undefined_frame. lia.
Qed.

Lemma not_playable_is_never_scheduled_witness :
  run {| name := "Empty"; frames := []; loopStrategy := Loop |}
      [tickAt 1; tickAt 2]
      (playbackEffect
         {| name := "Empty"; frames := []; loopStrategy := Loop |} 0
         (started 0))
  = Ok (playbackEffect
          {| name := "Empty"; frames := []; loopStrategy := Loop |} 0
          (started 0)).
Proof.
  apply (not_playable_is_never_scheduled
           {| name := "Empty"; frames := []; loopStrategy := Loop |} 0
           (started 0) [tickAt 1; tickAt 2]).
  right. reflexivity.
Defined.

End PlaybackExtras.

(** ** The preview effect and playback *)

Section PreviewExtras.

Import Playback PlaybackRuns Preview Samples MoreSamples.

Lemma displayTick_single_pingpong (nm : string) (f : AnimationFrame)
  (sheetFrames : list Frame) (d : Display) (s : PlaybackState) :
  fresh 0 s ->
  exists s',
    displayTick true sheetFrames
      {| name := nm; frames := [f]; loopStrategy := PingPong |} d s
    = Ok s' /\ fresh 0 s'.
Proof.
  intros (Hidx & Hcur & Hdir & Hplay & Hsch).
  set (anim := {| name := nm; frames := [f]; loopStrategy := PingPong |}).
  assert (Hf : js_index (frames anim) (frameIdx s) = Some f)
    by (rewrite Hidx; reflexivity).
  unfold displayTick, frameTick. rewrite Hsch.
  destruct (Z.lt_ge_cases (currentTime (tick d) - lastTime s) (duration f))
    as [Hlt|Hge].
  - rewrite (animate_waits anim _ s f Hf Hlt).
    unfold depsChanged. simpl.
    rewrite Z.eqb_refl, Bool.eqb_reflx. simpl. rewrite Z.eqb_refl.
    eexists; split; [reflexivity|]. unfold fresh. simpl. auto.
  - rewrite (pingpong_bounce anim _ s f eq_refl Hidx Hdir Hf Hge).
    unfold depsChanged, playbackEffect. simpl.
    rewrite Hcur, Hplay. simpl.
    eexists; split; [reflexivity|]. unfold fresh. simpl. auto.
Qed.

(** X6. A PingPong animation with a single step survives its bounce to
    index [-1] only through the preview effect: with the preview canvas
    in place every display frame ends on a fresh closure at step 0,
    whatever the stream of display frames, and nothing ever throws;
    without the preview effect the callback that follows the first
    advance reads [anim.frames[-1].duration] and throws. *)
Theorem single_step_pingpong_relies_on_preview
  (nm : string) (f : AnimationFrame) (sheetFrames : list Frame)
  (s : PlaybackState) :
  fresh 0 s ->
  (forall ds : list Display,
      exists s',
        displayRun true sheetFrames
          {| name := nm; frames := [f]; loopStrategy := PingPong |} ds s
        = Ok s' /\ fresh 0 s') /\
  (forall (d1 d2 : Display) (rest : list Display),
      duration f <= currentTime (tick d1) - lastTime s ->
      displayRun false sheetFrames
        {| name := nm; frames := [f]; loopStrategy := PingPong |}
        (d1 :: d2 :: rest) s
      = TypeError).
Proof.
  intros Hfresh. split.
  - intros ds. revert s Hfresh.
    induction ds as [|d rest IH]; intros s Hfresh.
    + exists s. split; [reflexivity | exact Hfresh].
    + destruct (displayTick_single_pingpong nm f sheetFrames d s Hfresh)
        as (s1 & Hstep & Hfresh1).
      destruct (IH s1 Hfresh1) as (s2 & Hrun & Hfresh2).
      exists s2. cbn [displayRun]. rewrite Hstep. auto.
  - intros d1 d2 rest Hge.
    destruct Hfresh as (Hidx & Hcur & Hdir & Hplay & Hsch).
    set (anim := {| name := nm; frames := [f]; loopStrategy := PingPong |}).
    assert (Hf : js_index (frames anim) (frameIdx s) = Some f)
      by (rewrite Hidx; reflexivity).
    cbn [displayRun]. unfold displayTick at 1, frameTick at 1.
    rewrite Hsch.
    rewrite (pingpong_bounce anim _ s f eq_refl Hidx Hdir Hf Hge).
    unfold depsChanged, playbackEffect. simpl.
    rewrite Hcur, Hplay. simpl.
    unfold displayTick, frameTick. simpl. reflexivity.
Qed.

Lemma single_step_pingpong_relies_on_preview_witness :
  (exists s',
      displayRun true [] pingPong1 [displayAt 1; displayAt 2; displayAt 3]
        (started 0)
      = Ok s' /\ fresh 0 s') /\
  displayRun false [] pingPong1 [displayAt 1; displayAt 2; displayAt 3]
    (started 0)
  = TypeError.
Proof.
  destruct (single_step_pingpong_relies_on_preview
              "Blink"%string (step 0 150) [] (started 0))
    as [Hok Hthrow].
  - repeat split.
  - split.
    + apply (Hok [displayAt 1; displayAt 2; displayAt 3]).
    + apply (Hthrow (displayAt 1) (displayAt 2) [displayAt 3]).
      vm_compute. discriminate.
Defined.

End PreviewExtras.

(** ** Lists edited by position *)

Section ListEdits.

Context {A : Type}.

Lemma js_index_nat (arr : list A) (k : nat) :
  js_index arr (Z.of_nat k) = nth_error arr k.
Proof.
  unfold js_index. destruct (Z.ltb_spec (Z.of_nat k) 0); [lia|].
  now rewrite Nat2Z.id.
Qed.

Lemma js_index_some_range (arr : list A) (i : Z) (v : A) :
  js_index arr i = Some v -> 0 <= i < zlength arr.
Proof.
  unfold js_index, zlength. intros H.
  destruct (Z.ltb_spec i 0); [discriminate|].
  assert (Hlt : (Z.to_nat i < List.length arr)%nat)
    by (apply nth_error_Some; congruence).
  lia.
Qed.

Lemma set_nth_length (arr : list A) (k : nat) (v : A) :
  List.length (set_nth arr k v) = List.length arr.
Proof.
  revert k. induction arr as [|a rest IH]; intros k; [reflexivity|].
  destruct k; simpl; [reflexivity | now rewrite IH].
Qed.

Lemma set_nth_same (arr : list A) (k : nat) (v : A) :
  (k < List.length arr)%nat -> nth_error (set_nth arr k v) k = Some v.
Proof.
  revert k. induction arr as [|a rest IH]; intros k Hk; simpl in *; [lia|].
  destruct k; simpl; [reflexivity|]. apply IH. lia.
Qed.

Lemma set_nth_other (arr : list A) (k j : nat) (v : A) :
  j <> k -> nth_error (set_nth arr k v) j = nth_error arr j.
Proof.
  revert k j. induction arr as [|a rest IH]; intros k j Hne.
  - reflexivity.
  - destruct k, j; simpl; try reflexivity; try congruence.
    apply IH. congruence.
Qed.

Lemma set_nth_twice (arr : list A) (k : nat) (v w : A) :
  set_nth (set_nth arr k v) k w = set_nth arr k w.
Proof.
  revert k. induction arr as [|a rest IH]; intros k; [reflexivity|].
  destruct k; simpl; [reflexivity | now rewrite IH].
Qed.

Lemma set_nth_id (arr : list A) (k : nat) (v : A) :
  nth_error arr k = Some v -> set_nth arr k v = arr.
Proof.
  revert k. induction arr as [|a rest IH]; intros k Hk.
  - destruct k; discriminate.
  - destruct k; simpl in *.
    + congruence.
    + now rewrite IH.
Qed.

Lemma filter_ne_from_out (arr : list A) :
  forall i0 index,
    index < i0 \/ i0 + zlength arr <= index ->
    filter_ne_from i0 index arr = arr.
Proof.
  unfold zlength.
  induction arr as [|a rest IH]; intros i0 index H; [reflexivity|].
  simpl in *. destruct (Z.eqb_spec i0 index); [lia|].
  rewrite IH; [reflexivity | lia].
Qed.

Lemma filter_ne_from_split (arr : list A) :
  forall i0 (k : nat),
    (k < List.length arr)%nat ->
    filter_ne_from i0 (i0 + Z.of_nat k) arr
    = firstn k arr ++ skipn (S k) arr.
Proof.
  induction arr as [|a rest IH]; intros i0 k Hk;
    cbn [List.length] in Hk; [lia|].
  destruct k as [|k].
  - cbn [filter_ne_from firstn skipn app Z.of_nat].
    rewrite Z.add_0_r, Z.eqb_refl.
    apply filter_ne_from_out. lia.
  - cbn [filter_ne_from].
    destruct (Z.eqb_spec i0 (i0 + Z.of_nat (S k))); [lia|].
    replace (i0 + Z.of_nat (S k)) with (i0 + 1 + Z.of_nat k) by lia.
    rewrite IH by lia. reflexivity.
Qed.

Lemma js_filter_ne_split (arr : list A) (index : Z) :
  0 <= index < zlength arr ->
  js_filter_ne arr index
  = firstn (Z.to_nat index) arr ++ skipn (S (Z.to_nat index)) arr.
Proof.
  unfold zlength. intros H. unfold js_filter_ne.
  rewrite <- (filter_ne_from_split arr 0 (Z.to_nat index)) by lia.
  f_equal. lia.
Qed.

Lemma js_filter_ne_out (arr : list A) (index : Z) :
  index < 0 \/ zlength arr <= index -> js_filter_ne arr index = arr.
Proof. intros H. apply filter_ne_from_out. lia. Qed.

Lemma js_filter_ne_length (arr : list A) (index : Z) :
  0 <= index < zlength arr ->
  zlength (js_filter_ne arr index) = zlength arr - 1.
Proof.
  intros H. rewrite js_filter_ne_split by exact H.
  unfold zlength in *.
  rewrite length_app, length_firstn, length_skipn. lia.
Qed.

Lemma js_filter_ne_before (arr : list A) (index j : Z) :
  0 <= index < zlength arr -> 0 <= j < index ->
  js_index (js_filter_ne arr index) j = js_index arr j.
Proof.
  intros H Hj. rewrite js_filter_ne_split by exact H.
  unfold js_index, zlength in *.
  destruct (Z.ltb_spec j 0); [lia|].
  rewrite nth_error_app1 by (rewrite length_firstn; lia).
  rewrite nth_error_firstn.
  destruct (Nat.ltb_spec (Z.to_nat j) (Z.to_nat index)); [reflexivity | lia].
Qed.

Lemma js_filter_ne_after (arr : list A) (index j : Z) :
  0 <= index < zlength arr -> index <= j ->
  js_index (js_filter_ne arr index) j = js_index arr (j + 1).
Proof.
  intros H Hj. rewrite js_filter_ne_split by exact H.
  unfold js_index, zlength in *.
  destruct (Z.ltb_spec j 0); [lia|].
  destruct (Z.ltb_spec (j + 1) 0); [lia|].
  rewrite nth_error_app2 by (rewrite length_firstn; lia).
  rewrite length_firstn, nth_error_skipn. f_equal. lia.
Qed.

Lemma js_filter_ne_last (arr : list A) (v : A) :
  js_filter_ne (arr ++ [v]) (zlength arr) = arr.
Proof.
  rewrite js_filter_ne_split
    by (unfold zlength; rewrite length_app; simpl; lia).
  unfold zlength. rewrite Nat2Z.id.
  rewrite skipn_all2 by (rewrite length_app; simpl; lia).
  rewrite firstn_app, Nat.sub_diag, firstn_all. cbn [firstn].
  now rewrite !app_nil_r.
Qed.

Lemma js_index_set_nth_same (arr : list A) (i : Z) (v w : A) :
  js_index arr i = Some w ->
  js_index (set_nth arr (Z.to_nat i) v) i = Some v.
Proof.
  intros H. pose proof (js_index_some_range arr i w H) as Hr.
  unfold js_index, zlength in *.
  destruct (Z.ltb_spec i 0); [lia|].
  apply set_nth_same. lia.
Qed.

Lemma js_index_set_nth_other (arr : list A) (i j : Z) (v : A) :
  0 <= i -> j <> i ->
  js_index (set_nth arr (Z.to_nat i) v) j = js_index arr j.
Proof.
  intros Hi Hne. unfold js_index.
  destruct (Z.ltb_spec j 0); [reflexivity|].
  apply set_nth_other. lia.
Qed.

Lemma zlength_set_nth (arr : list A) (k : nat) (v : A) :
  zlength (set_nth arr k v) = zlength arr.
Proof. unfold zlength. now rewrite set_nth_length. Qed.

Lemma js_index_app_old (arr : list A) (v w : A) (j : Z) :
  js_index arr j = Some w -> js_index (arr ++ [v]) j = Some w.
Proof.
  intros H. pose proof (js_index_some_range arr j w H) as Hr.
  unfold js_index, zlength in *.
  destruct (Z.ltb_spec j 0); [lia|].
  rewrite nth_error_app1 by lia. exact H.
Qed.

Lemma js_index_app_new (arr : list A) (v : A) :
  js_index (arr ++ [v]) (zlength arr) = Some v.
Proof.
  unfold zlength. rewrite js_index_nat.
  rewrite nth_error_app2 by lia. now rewrite Nat.sub_diag.
Qed.

End ListEdits.

Lemma map_set_nth {A B : Type} (g : A -> B) (arr : list A) (k : nat)
  (v : A) :
  map g (set_nth arr k v) = set_nth (map g arr) k (g v).
Proof.
  revert k. induction arr as [|a rest IH]; intros k; [reflexivity|].
  destruct k; simpl; [reflexivity | now rewrite IH].
Qed.

(** ** Animation management *)

Section AnimationExtras.

Import AnimationModel AnimationEdit Samples MoreSamples.

(** X7. Deleting the animation at position [index] removes that entry
    and no other: the entries before it keep their positions, the
    entries behind it move down by one.  The selection follows: none
    stays none, the selection of the deleted animation is cleared, a
    selection before [index] keeps its number, a selection behind it is
    lowered by one, and in both cases it designates the animation it
    designated before. *)
Theorem deleteAnimation_selection_follows
  (animations : list Animation) (selected : option Z) (index : Z) :
  0 <= index < zlength animations ->
  fst (deleteAnimation animations selected index)
  = firstn (Z.to_nat index) animations
    ++ skipn (S (Z.to_nat index)) animations /\
  zlength (fst (deleteAnimation animations selected index))
  = zlength animations - 1 /\
  (forall j, j < index ->
     js_index (fst (deleteAnimation animations selected index)) j
     = js_index animations j) /\
  (forall j, index <= j ->
     js_index (fst (deleteAnimation animations selected index)) j
     = js_index animations (j + 1)) /\
  (selected = None ->
   snd (deleteAnimation animations selected index) = None) /\
  (selected = Some index ->
   snd (deleteAnimation animations selected index) = None) /\
  (forall sel,
      selected = Some sel -> sel < index ->
      snd (deleteAnimation animations selected index) = Some sel /\
      js_index (fst (deleteAnimation animations selected index)) sel
      = js_index animations sel) /\
  (forall sel,
      selected = Some sel -> index < sel ->
      snd (deleteAnimation animations selected index) = Some (sel - 1) /\
      js_index (fst (deleteAnimation animations selected index)) (sel - 1)
      = js_index animations sel).
Proof.
  intros Hin.
  assert (Hfst : fst (deleteAnimation animations selected index)
                 = js_filter_ne animations index).
  { unfold deleteAnimation. destruct selected as [sel|]; [|reflexivity].
    destruct (sel =? index); [reflexivity|].
    now destruct (index <? sel). }
  assert (Hbefore : forall j, j < index ->
            js_index (js_filter_ne animations index) j
            = js_index animations j).
  { intros j Hj. destruct (Z.lt_ge_cases j 0) as [Hneg|Hpos].
    - unfold js_index. now destruct (Z.ltb_spec j 0); [|lia].
    - apply js_filter_ne_before; lia. }
  assert (Hafter : forall j, index <= j ->
            js_index (js_filter_ne animations index) j
            = js_index animations (j + 1)).
  { intros j Hj. now apply js_filter_ne_after. }
  rewrite Hfst. repeat apply conj.
  - now apply js_filter_ne_split.
  - now apply js_filter_ne_length.
  - exact Hbefore.
  - exact Hafter.
  - intros ->. reflexivity.
  - intros ->. unfold deleteAnimation. now rewrite Z.eqb_refl.
  - intros sel -> Hlt. split; [|now apply Hbefore].
    unfold deleteAnimation.
    destruct (Z.eqb_spec sel index); [lia|].
    now destruct (Z.ltb_spec index sel); [lia|].
  - intros sel -> Hlt. split.
    + unfold deleteAnimation.
      destruct (Z.eqb_spec sel index); [lia|].
      now destruct (Z.ltb_spec index sel); [|lia].
    + rewrite Hafter by lia. f_equal. lia.
Qed.

(** X7 at three animations, deleting the first while the third is
    selected: the second and third remain, and the selection, now 1,
    still designates the Loop animation. *)
Lemma deleteAnimation_selection_follows_witness :
  fst (deleteAnimation [freeze3; end3; loop4] (Some 2) 0) = [end3; loop4] /\
  snd (deleteAnimation [freeze3; end3; loop4] (Some 2) 0) = Some 1 /\
  js_index (fst (deleteAnimation [freeze3; end3; loop4] (Some 2) 0)) 1
  = Some loop4.
Proof.
  destruct (deleteAnimation_selection_follows [freeze3; end3; loop4]
              (Some 2) 0) as (Hfst & _ & _ & _ & _ & _ & _ & H).
  - vm_compute. split; [discriminate | reflexivity].
  - destruct (H 2 eq_refl) as [Hsel Ha]; [lia|].
    split; [|split].
    + rewrite Hfst. reflexivity.
    + exact Hsel.
    + exact Ha.
Defined.

(** X8. Adding a step appends it to the steps of that animation alone,
    with the default duration, and removing the step at that last
    position gives back the list of animations as it was. *)
Theorem addFrame_then_removeFrame
  (animations : list Animation) (defaultDuration i frameIndex : Z)
  (a : Animation) :
  js_index animations i = Some a ->
  exists added,
    addFrameToAnimation animations defaultDuration i frameIndex = Ok added /\
    js_index added i
    = Some {| name := name a;
              frames := frames a
                        ++ [ {| Types.frameIndex := frameIndex;
                                duration := defaultDuration |} ];
              loopStrategy := loopStrategy a |} /\
    (forall j, j <> i -> js_index added j = js_index animations j) /\
    removeFrameFromAnimation added i (zlength (frames a))
    = Edited animations.
Proof.
  intros Ha. pose proof (js_index_some_range animations i a Ha) as Hi.
  unfold addFrameToAnimation. rewrite Ha.
  eexists. split; [reflexivity|]. split; [|split].
  - now apply (js_index_set_nth_same animations i _ a).
  - intros j Hne. apply js_index_set_nth_other; lia.
  - unfold removeFrameFromAnimation, updateAnimation.
    rewrite (js_index_set_nth_same animations i _ a Ha).
    unfold applyUpdates. cbn [u_name u_frames u_loopStrategy name frames
                                loopStrategy].
    rewrite js_filter_ne_last, set_nth_twice.
    f_equal. apply set_nth_id.
    unfold js_index in Ha. destruct (Z.ltb_spec i 0); [lia|].
    rewrite Ha. now destruct a.
Qed.

Lemma addFrame_then_removeFrame_witness :
  exists added,
    addFrameToAnimation [freeze3; end3] 150 1 4 = Ok added /\
    removeFrameFromAnimation added 1 3 = Edited [freeze3; end3].
Proof.
  destruct (addFrame_then_removeFrame [freeze3; end3] 150 1 4 end3 eq_refl)
    as (added & Hadd & _ & _ & Hrem).
  exists added. split; [exact Hadd | exact Hrem].
Defined.

(** X9. Removing a step of an animation takes out exactly the step at
    that position, keeping the others in order and leaving the name, the
    loop strategy and every other animation alone; a position outside
    the steps removes nothing. *)
Theorem removeFrame_removes_one_step
  (animations : list Animation) (i k : Z) (a : Animation) :
  js_index animations i = Some a ->
  exists removed a',
    removeFrameFromAnimation animations i k = Edited removed /\
    zlength removed = zlength animations /\
    (forall j, j <> i -> js_index removed j = js_index animations j) /\
    js_index removed i = Some a' /\
    name a' = name a /\ loopStrategy a' = loopStrategy a /\
    (0 <= k < zlength (frames a) ->
     frames a' = firstn (Z.to_nat k) (frames a)
                 ++ skipn (S (Z.to_nat k)) (frames a)) /\
    (k < 0 \/ zlength (frames a) <= k -> frames a' = frames a).
Proof.
  intros Ha. pose proof (js_index_some_range animations i a Ha) as Hi.
  unfold removeFrameFromAnimation, updateAnimation. rewrite Ha.
  eexists. eexists. split; [reflexivity|].
  split; [apply zlength_set_nth|].
  split; [intros j Hne; apply js_index_set_nth_other; lia|].
  split; [now apply (js_index_set_nth_same animations i _ a)|].
  unfold applyUpdates. cbn [u_name u_frames u_loopStrategy name frames
                              loopStrategy].
  split; [reflexivity|]. split; [reflexivity|]. split.
  - intros Hk. now apply js_filter_ne_split.
  - intros Hk. now apply js_filter_ne_out.
Qed.

Lemma removeFrame_removes_one_step_witness :
  removeFrameFromAnimation [freeze3; end3] 0 1
  = Edited [ {| name := "Idle"; frames := [step 0 150; step 2 150];
                loopStrategy := Freeze |};
             end3 ].
Proof.
  destruct (removeFrame_removes_one_step [freeze3; end3] 0 1 freeze3
              eq_refl) as (removed & a' & Hrem & _).
  rewrite Hrem. vm_compute in Hrem. injection Hrem as <-. reflexivity.
Defined.

(** X10. Editing the duration of a step changes that one duration: the
    frame references of all steps, the other durations, the name, the
    loop strategy and the other animations stay as they were. *)
Theorem updateFrameDuration_changes_one_duration
  (animations : list Animation) (i k d : Z)
  (a : Animation) (f : AnimationFrame) :
  js_index animations i = Some a ->
  js_index (frames a) k = Some f ->
  exists updated a',
    updateFrameDuration animations i k d = Edited updated /\
    (forall j, j <> i -> js_index updated j = js_index animations j) /\
    js_index updated i = Some a' /\
    name a' = name a /\ loopStrategy a' = loopStrategy a /\
    map frameIndex (frames a') = map frameIndex (frames a) /\
    js_index (frames a') k
    = Some {| frameIndex := frameIndex f; duration := d |} /\
    (forall j, j <> k -> js_index (frames a') j = js_index (frames a) j).
Proof.
  intros Ha Hf.
  pose proof (js_index_some_range animations i a Ha) as Hi.
  pose proof (js_index_some_range (frames a) k f Hf) as Hk.
  unfold updateFrameDuration, updateAnimation. rewrite Ha, Hf.
  eexists. eexists. split; [reflexivity|].
  split; [intros j Hne; apply js_index_set_nth_other; lia|].
  split; [now apply (js_index_set_nth_same animations i _ a)|].
  unfold applyUpdates. cbn [u_name u_frames u_loopStrategy name frames
                              loopStrategy].
  split; [reflexivity|]. split; [reflexivity|]. split; [|split].
  - rewrite map_set_nth. cbn [frameIndex]. apply set_nth_id.
    rewrite nth_error_map.
    unfold js_index in Hf. destruct (Z.ltb_spec k 0); [lia|].
    now rewrite Hf.
  - now apply (js_index_set_nth_same (frames a) k _ f).
  - intros j Hne. apply js_index_set_nth_other; lia.
Qed.

Lemma updateFrameDuration_changes_one_duration_witness :
  updateFrameDuration [freeze3; end3] 1 2 90
  = Edited [ freeze3;
             {| name := "Die";
                frames := [step 0 150; step 1 150; step 2 90];
                loopStrategy := End |} ].
Proof.
  destruct (updateFrameDuration_changes_one_duration [freeze3; end3] 1 2 90
              end3 (step 2 150) eq_refl eq_refl)
    as (updated & a' & Hupd & _).
  rewrite Hupd. vm_compute in Hupd. injection Hupd as <-. reflexivity.
Defined.

(** X11. Animation names are made from the number of animations alone
    and can repeat: after adding an animation, deleting any earlier one
    and adding again, the last two animations carry the same name. *)
Theorem addAnimation_can_repeat_a_name
  (animations : list Animation) (selected : option Z) (i : Z) :
  0 <= i < zlength animations ->
  exists a b,
    js_index
      (fst (addAnimation
              (fst (deleteAnimation (fst (addAnimation animations))
                      selected i))))
      (zlength animations - 1) = Some a /\
    js_index
      (fst (addAnimation
              (fst (deleteAnimation (fst (addAnimation animations))
                      selected i))))
      (zlength animations) = Some b /\
    name a = name b.
Proof.
  intros Hi.
  assert (Hdel : forall l, fst (deleteAnimation l selected i)
                           = js_filter_ne l i).
  { intros l. unfold deleteAnimation.
    destruct selected as [sel|]; [|reflexivity].
    destruct (sel =? i); [reflexivity|]. now destruct (i <? sel). }
  rewrite Hdel. unfold addAnimation at 2. cbn [fst].
  set (a := {| name := String.append "Animation"
                         (CodeGen.num (zlength animations + 1));
               frames := []; loopStrategy := Loop |}).
  set (l2 := js_filter_ne (animations ++ [a]) i).
  assert (Hlen1 : zlength (animations ++ [a]) = zlength animations + 1)
    by (unfold zlength; rewrite length_app; simpl; lia).
  assert (Hlen2 : zlength l2 = zlength animations)
    by (unfold l2; rewrite js_filter_ne_length; lia).
  assert (Ha : js_index l2 (zlength animations - 1) = Some a).
  { unfold l2. rewrite js_filter_ne_after by lia.
    replace (zlength animations - 1 + 1) with (zlength animations) by lia.
    apply js_index_app_new. }
  unfold addAnimation. cbn [fst].
  set (b := {| name := String.append "Animation"
                         (CodeGen.num (zlength l2 + 1));
               frames := []; loopStrategy := Loop |}).
  exists a, b. split; [|split].
  - apply js_index_app_old. exact Ha.
  - pose proof (js_index_app_new l2 b) as Hb.
    rewrite Hlen2 in Hb. exact Hb.
  - unfold a, b. cbn [name]. now rewrite Hlen2.
Qed.

Lemma addAnimation_can_repeat_a_name_witness :
  exists a b,
    js_index
      (fst (addAnimation
              (fst (deleteAnimation (fst (addAnimation [freeze3]))
                      (Some 1) 0))))
      0 = Some a /\
    js_index
      (fst (addAnimation
              (fst (deleteAnimation (fst (addAnimation [freeze3]))
                      (Some 1) 0))))
      1 = Some b /\
    name a = name b.
Proof.
  apply (addAnimation_can_repeat_a_name [freeze3] (Some 1) 0).
  vm_compute. split; [discriminate | reflexivity].
Defined.

End AnimationExtras.

(** ** Source views and clicks on the sheet *)

Section SheetExtras.

Import FrameResolver SourceViews Samples MoreSamples.

Lemma parseSourceViewFrames_index (svs : list SourceView) (j : Z) :
  js_index (parseSourceViewFrames svs) j
  = match js_index svs j with
    | Some sv => Some {| index := j; x := sv_x sv; y := sv_y sv;
                         width := sv_width sv; height := sv_height sv |}
    | None => None
    end.
Proof.
  unfold js_index. destruct (Z.ltb_spec j 0); [reflexivity|].
  unfold parseSourceViewFrames, js_mapi.
  destruct (nth_error svs (Z.to_nat j)) as [sv|] eqn:E.
  - rewrite (mapi_from_nth _ svs 0 (Z.to_nat j) sv E).
    do 2 f_equal. lia.
  - apply nth_error_None. rewrite mapi_from_length.
    now apply nth_error_None.
Qed.

Lemma parseSourceViewFrames_zlength (svs : list SourceView) :
  zlength (parseSourceViewFrames svs) = zlength svs.
Proof.
  unfold zlength, parseSourceViewFrames, js_mapi.
  now rewrite mapi_from_length.
Qed.

(** X12. Deleting the source view at position [k] renumbers the frames
    behind it: frames before [k] are unchanged, and frame [j >= k] now
    carries the rectangle that frame [j + 1] had, so that a step that
    refers to a frame index [>= k] shows another rectangle, and the last
    index refers to no frame any more. *)
Theorem deleteSourceView_renumbers (svs : list SourceView) (k : Z) :
  0 <= k < zlength svs ->
  zlength (parseSourceViewFrames (deleteSourceView svs k))
  = zlength (parseSourceViewFrames svs) - 1 /\
  (forall j,
      0 <= j < k ->
      js_index (parseSourceViewFrames (deleteSourceView svs k)) j
      = js_index (parseSourceViewFrames svs) j) /\
  (forall j f,
      k <= j ->
      js_index (parseSourceViewFrames svs) (j + 1) = Some f ->
      js_index (parseSourceViewFrames (deleteSourceView svs k)) j
      = Some {| index := j; x := x f; y := y f;
                width := width f; height := height f |}) /\
  js_index (parseSourceViewFrames (deleteSourceView svs k))
    (zlength svs - 1) = None.
Proof.
  intros Hk. unfold deleteSourceView. split; [|split; [|split]].
  - rewrite !parseSourceViewFrames_zlength. now apply js_filter_ne_length.
  - intros j Hj. rewrite !parseSourceViewFrames_index.
    now rewrite js_filter_ne_before.
  - intros j f Hj Hf. rewrite parseSourceViewFrames_index in *.
    rewrite js_filter_ne_after by lia.
    destruct (js_index svs (j + 1)) as [sv|]; [|discriminate].
    injection Hf as <-. reflexivity.
  - apply js_index_out_of_range. right.
    rewrite parseSourceViewFrames_zlength, js_filter_ne_length; lia.
Qed.

Lemma deleteSourceView_renumbers_witness :
  js_index (parseSourceViewFrames (deleteSourceView twoViews 0)) 0
  = Some {| index := 0; x := 20; y := 0; width := 7; height := 9 |}.
Proof.
  destruct (deleteSourceView_renumbers twoViews 0) as (_ & _ & H & _).
  - vm_compute. split; [discriminate | reflexivity].
  - apply (H 0 {| index := 1; x := 20; y := 0; width := 7; height := 9 |}).
    + lia.
    + reflexivity.
Defined.








End SheetExtras.

(** ** The application as a whole *)

Section AppExtras.

Import CodeGen App AppInvariant.
Local Open Scope Z_scope.

Lemma inRange_true {A : Type} (arr : list A) (i : Z) :
  inRange arr i = true <-> 0 <= i < zlength arr.
Proof.
  unfold inRange. rewrite andb_true_iff, Z.leb_le, Z.ltb_lt. tauto.
Qed.

Lemma inRange_js_index {A : Type} (arr : list A) (i : Z) :
  inRange arr i = true -> exists v, js_index arr i = Some v.
Proof. intros H. apply js_index_in_range. now apply inRange_true. Qed.

Lemma parseIntOr_nonzero (v : option Z) (k : Z) :
  k <> 0 -> parseIntOr v k <> 0.
Proof.
  intros Hk. unfold parseIntOr. destruct v as [n|]; [|exact Hk].
  destruct (Z.eqb_spec n 0); [exact Hk | assumption].
Qed.

Lemma consistent_initial : consistent initial.
Proof.
  unfold consistent, initial. cbn.
  repeat split; try discriminate; try congruence.
Qed.

Lemma consistent_resetEffect (st st' : AppState) :
  consistent st' -> consistent (resetEffect st st').
Proof.
  unfold resetEffect.
  destruct (option_Z_eqb (selectedAnimation st) (selectedAnimation st')
            && option_Z_eqb (selectedLength st) (selectedLength st'));
    [trivial|].
  unfold consistent, derivedFrames. cbn. trivial.
Qed.

(** A change of the animations that keeps their number. *)
Lemma consistent_setAnimations (st : AppState) (l : list Animation) :
  zlength l = zlength (animations st) ->
  consistent st -> consistent (setAnimations l st).
Proof.
  intros Hlen (H1 & H2 & H3 & H4 & H5).
  unfold consistent, derivedFrames in *. cbn.
  repeat split; try assumption.
  - now apply H3.
  - rewrite Hlen. now apply H3.
Qed.

Lemma addFrameToAnimation_in_range (l : list Animation) (d i fi : Z) :
  0 <= i < zlength l ->
  exists l',
    AnimationModel.addFrameToAnimation l d i fi = Ok l' /\
    zlength l' = zlength l.
Proof.
  intros Hi. destruct (js_index_in_range l i Hi) as [a Ha].
  unfold AnimationModel.addFrameToAnimation. rewrite Ha.
  eexists. split; [reflexivity | apply zlength_set_nth].
Qed.

Lemma updateAnimation_in_range (l : list Animation) (i : Z)
  (u : AnimationEdit.AnimationUpdates) :
  0 <= i < zlength l ->
  exists l',
    AnimationEdit.updateAnimation l i u = Edited l' /\
    zlength l' = zlength l.
Proof.
  intros Hi. destruct (js_index_in_range l i Hi) as [a Ha].
  unfold AnimationEdit.updateAnimation. rewrite Ha.
  eexists. split; [reflexivity | apply zlength_set_nth].
Qed.

Ltac cells :=
  cbn [image parseMode gridConfig sourceViews frames animations
       selectedAnimation animationGroupName isPlaying currentFrameIdx
       imagePath defaultDuration selectedSourceView
       setImage setParseMode setGridConfig setSourceViews setFrames
       setAnimations setSelectedAnimation setAnimationGroupName
       setIsPlaying setCurrentFrameIdx setImagePath setDefaultDuration
       setSelectedSourceView frameEffect] in *.

Ltac unchanged Hc :=
  eexists; split; [reflexivity|]; apply consistent_resetEffect; exact Hc.

Ltac settle H1 H3 :=
  repeat split; try assumption; try discriminate;
  try (intros; discriminate); try (now apply H3);
  try (apply H3; congruence);
  try (intros _; apply H1; discriminate).

Ltac same_model H1 H2 H3 H4 H5 :=
  eexists; split; [reflexivity|]; apply consistent_resetEffect;
  unfold consistent, derivedFrames in *; cells;
  settle H1 H3.

Lemma step_consistent (ev : Event) (st : AppState) :
  consistent st ->
  exists st', step ev st = Edited st' /\ consistent st'.
Proof.
  intros Hc. pose proof Hc as (H1 & H2 & H3 & H4 & H5).
  unfold step. destruct ev; cbn [handle frameDepsChanged].
  - (* ImageLoaded *)
    eexists; split; [reflexivity|]. apply consistent_resetEffect.
    unfold consistent, derivedFrames, FrameResolver.resolveFrames. cells.
    settle H1 H3.
  - (* ClickParseMode *)
    destruct (image st) as [img|] eqn:Eimg;
      [|destruct (parseMode st) as [[|]|]; unchanged Hc].
    eexists; split; [reflexivity|]. apply consistent_resetEffect.
    cells.
    assert (Hnew : consistent
                     (frameEffect (setParseMode (Some m) st))).
    { unfold consistent, derivedFrames, FrameResolver.resolveFrames,
        FrameResolver.parseGridFrames. cells. rewrite Eimg.
      settle H1 H3. }
    destruct (parseMode st) as [[|]|] eqn:Epm; destruct m;
      try exact Hnew;
      unfold consistent, derivedFrames in *; cells; rewrite Eimg;
      rewrite ?Epm in *;
      settle H1 H3.
  - (* EditGrid *)
    destruct (parseMode st) as [[|]|] eqn:Epm; try unchanged Hc.
    destruct (image st) as [img|] eqn:Eimg;
      [|exfalso; apply H1; [discriminate | reflexivity]].
    eexists; split; [reflexivity|]. apply consistent_resetEffect.
    unfold consistent, derivedFrames, FrameResolver.resolveFrames,
      FrameResolver.parseGridFrames. cells. rewrite Epm, Eimg.
    settle H1 H3.
    + destruct fld; cbn [editGrid rows]; try assumption.
      apply parseIntOr_nonzero. discriminate.
    + destruct fld; cbn [editGrid columns]; try assumption.
      apply parseIntOr_nonzero. discriminate.
  - (* AddSourceView *)
    destruct (parseMode st) as [[|]|] eqn:Epm; try unchanged Hc.
    unfold SourceViews.addSourceView.
    eexists; split; [reflexivity|]. apply consistent_resetEffect.
    unfold consistent, derivedFrames, FrameResolver.resolveFrames. cells.
    rewrite Epm.
    settle H1 H3.
  - (* EditSourceView *)
    destruct (parseMode st) as [[|]|] eqn:Epm; try unchanged Hc.
    destruct (inRange (sourceViews st) i) eqn:Ein; [|unchanged Hc].
    destruct (inRange_js_index _ _ Ein) as [sv Hsv].
    unfold SourceViews.updateSourceView. rewrite Hsv.
    eexists; split; [reflexivity|]. apply consistent_resetEffect.
    unfold consistent, derivedFrames, FrameResolver.resolveFrames. cells.
    rewrite Epm.
    settle H1 H3.
  - (* DeleteSourceView *)
    destruct (parseMode st) as [[|]|] eqn:Epm; try unchanged Hc.
    destruct (inRange (sourceViews st) i) eqn:Ein; [|unchanged Hc].
    eexists; split; [reflexivity|]. apply consistent_resetEffect.
    unfold consistent, derivedFrames, FrameResolver.resolveFrames. cells.
    rewrite Epm.
    settle H1 H3.
  - (* SelectSourceView *)
    destruct (parseMode st) as [[|]|] eqn:Epm; try unchanged Hc.
    destruct (inRange (sourceViews st) i) eqn:Ein; [|unchanged Hc].
    same_model H1 H2 H3 H4 H5.
  - (* CanvasMouseDown *)
    destruct (image st) as [img|] eqn:Eimg; [|unchanged Hc].
    destruct (selectedAnimation st) as [sel|] eqn:Esel; [|unchanged Hc].
    destruct (SourceViews.clickedFrame (frames st) cx cy) as [f|];
      [|unchanged Hc].
    destruct (addFrameToAnimation_in_range (animations st)
                (defaultDuration st) sel (index f) (H3 sel eq_refl))
      as (l' & Hadd & Hlen).
    rewrite Hadd. cbn [of_result setAnimationsOf].
    eexists; split; [reflexivity|]. apply consistent_resetEffect.
    now apply consistent_setAnimations.
  - (* AddAnimation *)
    unfold AnimationEdit.addAnimation.
    eexists; split; [reflexivity|]. apply consistent_resetEffect.
    unfold consistent, derivedFrames in *. cells.
    settle H1 H3.
    + injection H as <-. unfold zlength. lia.
    + injection H as <-. unfold zlength. rewrite length_app. simpl. lia.
  - (* RenameAnimation *)
    destruct (inRange (animations st) i) eqn:Ein; [|unchanged Hc].
    apply inRange_true in Ein.
    destruct (updateAnimation_in_range (animations st) i
                {| AnimationEdit.u_name := Some newName;
                   AnimationEdit.u_frames := None;
                   AnimationEdit.u_loopStrategy := None |} Ein)
      as (l' & Hupd & Hlen).
    rewrite Hupd. cbn [setAnimationsOf].
    eexists; split; [reflexivity|]. apply consistent_resetEffect.
    now apply consistent_setAnimations.
  - (* DeleteAnimation *)
    destruct (inRange (animations st) i) eqn:Ein; [|unchanged Hc].
    apply inRange_true in Ein.
    pose proof (js_filter_ne_length (animations st) i Ein) as Hlen.
    unfold AnimationEdit.deleteAnimation.
    destruct (selectedAnimation st) as [sel|] eqn:Esel.
    + specialize (H3 sel eq_refl).
      destruct (Z.eqb_spec sel i); [|destruct (Z.ltb_spec i sel)];
        (eexists; split; [reflexivity|]; apply consistent_resetEffect;
         unfold consistent, derivedFrames in *; cells;
         repeat split; try assumption; try discriminate;
         try (intros; discriminate);
         try match goal with
             | Hs : Some _ = Some _ |- _ => injection Hs as <-; lia
             end).
    + eexists; split; [reflexivity|]. apply consistent_resetEffect.
      unfold consistent, derivedFrames in *. cells.
      settle H1 H3.
  - (* ChangeLoopStrategy *)
    destruct (inRange (animations st) i) eqn:Ein; [|unchanged Hc].
    apply inRange_true in Ein.
    destruct (updateAnimation_in_range (animations st) i
                {| AnimationEdit.u_name := None;
                   AnimationEdit.u_frames := None;
                   AnimationEdit.u_loopStrategy := Some ls |} Ein)
      as (l' & Hupd & Hlen).
    rewrite Hupd. cbn [setAnimationsOf].
    eexists; split; [reflexivity|]. apply consistent_resetEffect.
    now apply consistent_setAnimations.
  - (* SelectAnimation *)
    destruct (inRange (animations st) i) eqn:Ein; [|unchanged Hc].
    apply inRange_true in Ein.
    eexists; split; [reflexivity|]. apply consistent_resetEffect.
    unfold consistent, derivedFrames in *. cells.
    settle H1 H3; injection H as <-; lia.
  - (* EditDuration *)
    destruct (js_index (animations st) i) as [anim|] eqn:Ea; [|unchanged Hc].
    destruct (isSelected st i && inRange (Types.frames anim) frameIdx)
      eqn:Eg; [|unchanged Hc].
    apply andb_prop in Eg. destruct Eg as [_ Ein].
    destruct (inRange_js_index _ _ Ein) as [f Hf].
    pose proof (js_index_some_range _ _ _ Ea) as Hi.
    unfold AnimationEdit.updateFrameDuration. rewrite Ea, Hf.
    destruct (updateAnimation_in_range (animations st) i
                {| AnimationEdit.u_name := None;
                   AnimationEdit.u_frames :=
                     Some (set_nth (Types.frames anim) (Z.to_nat frameIdx)
                             {| frameIndex := frameIndex f;
                                duration := parseIntOr v 150 |});
                   AnimationEdit.u_loopStrategy := None |} Hi)
      as (l' & Hupd & Hlen).
    rewrite Hupd. cbn [setAnimationsOf].
    eexists; split; [reflexivity|]. apply consistent_resetEffect.
    now apply consistent_setAnimations.
  - (* RemoveFrame *)
    destruct (js_index (animations st) i) as [anim|] eqn:Ea; [|unchanged Hc].
    destruct (isSelected st i && inRange (Types.frames anim) frameIdx)
      eqn:Eg; [|unchanged Hc].
    pose proof (js_index_some_range _ _ _ Ea) as Hi.
    unfold AnimationEdit.removeFrameFromAnimation. rewrite Ea.
    destruct (updateAnimation_in_range (animations st) i
                {| AnimationEdit.u_name := None;
                   AnimationEdit.u_frames :=
                     Some (js_filter_ne (Types.frames anim) frameIdx);
                   AnimationEdit.u_loopStrategy := None |} Hi)
      as (l' & Hupd & Hlen).
    rewrite Hupd. cbn [setAnimationsOf].
    eexists; split; [reflexivity|]. apply consistent_resetEffect.
    now apply consistent_setAnimations.
  - (* PickFrame *)
    destruct v as [frameIndex|]; [|unchanged Hc].
    destruct (inRange (animations st) i && isSelected st i
              && existsb (fun f => index f =? frameIndex) (frames st))
      eqn:Eg; [|unchanged Hc].
    apply andb_prop in Eg. destruct Eg as [Eg _].
    apply andb_prop in Eg. destruct Eg as [Ein _].
    apply inRange_true in Ein.
    destruct (addFrameToAnimation_in_range (animations st)
                (defaultDuration st) i frameIndex Ein)
      as (l' & Hadd & Hlen).
    rewrite Hadd. cbn [of_result setAnimationsOf].
    eexists; split; [reflexivity|]. apply consistent_resetEffect.
    now apply consistent_setAnimations.
  - (* EditGroupName *) same_model H1 H2 H3 H4 H5.
  - (* EditDefaultDuration *) same_model H1 H2 H3 H4 H5.
  - (* EditImagePath *)
    destruct (0 <? zlength (animations st)); [|unchanged Hc].
    same_model H1 H2 H3 H4 H5.
  - (* TogglePlay *)
    destruct (selectedAnimation st) eqn:Esel; [|unchanged Hc].
    eexists; split; [reflexivity|]. apply consistent_resetEffect.
    unfold consistent, derivedFrames in *. cells.
    settle H1 H3.
  - (* Restart *)
    destruct (selectedAnimation st) eqn:Esel; [|unchanged Hc].
    eexists; split; [reflexivity|]. apply consistent_resetEffect.
    unfold consistent, derivedFrames in *. cells.
    settle H1 H3.
  - (* PlaybackWrites *) same_model H1 H2 H3 H4 H5.
Qed.

Lemma steps_consistent (evs : list Event) :
  forall st,
    consistent st ->
    exists st', steps evs st = Edited st' /\ consistent st'.
Proof.
  induction evs as [|ev rest IH]; intros st Hc.
  - exists st. split; [reflexivity | exact Hc].
  - destruct (step_consistent ev st Hc) as (st1 & Hstep & Hc1).
    destruct (IH st1 Hc1) as (st2 & Hsteps & Hc2).
    exists st2. cbn [steps]. rewrite Hstep. auto.
Qed.

(** X15. No sequence of events makes a handler throw or store a
    malformed element, and in every state reached the selected
    animation, if any, exists: [animations[selectedAnimation]] is never
    [undefined]. *)
Theorem handlers_never_throw (evs : list Event) :
  exists st,
    steps evs initial = Edited st /\
    forall sel,
      selectedAnimation st = Some sel ->
      exists a, js_index (animations st) sel = Some a.
Proof.
  destruct (steps_consistent evs initial consistent_initial)
    as (st & Hsteps & (_ & _ & H3 & _)).
  exists st. split; [exact Hsteps|].
  intros sel Hsel. apply js_index_in_range. now apply H3.
Qed.



(** X17. The rows and columns of the grid never become zero: the inputs
    fall back to 1 for an empty, unreadable or zero text (negative
    numbers are kept). *)
Theorem rows_and_columns_never_zero (evs : list Event) (st : AppState) :
  steps evs initial = Edited st ->
  rows (gridConfig st) <> 0 /\ columns (gridConfig st) <> 0.
Proof.
  intros Hsteps.
  destruct (steps_consistent evs initial consistent_initial)
    as (st' & Hsteps' & (_ & _ & _ & H4 & H5)).
  rewrite Hsteps in Hsteps'. injection Hsteps' as <-. auto.
Qed.

Lemma rows_and_columns_never_zero_witness :
  exists st,
    steps AppSamples.session initial = Edited st /\
    rows (gridConfig st) <> 0 /\ columns (gridConfig st) <> 0.
Proof.
  eexists. split; [vm_compute; reflexivity|].
  apply (rows_and_columns_never_zero AppSamples.session).
  vm_compute. reflexivity.
Defined.

End AppExtras.

(** ** The lists of the generated text *)

Section CodeTextExtras.

Import CodeGen CodeText App AppInvariant Samples MoreSamples.
Local Open Scope string_scope.

Lemma append_nil_r (a : string) : a ++ "" = a.
Proof. induction a as [|ch a IH]; simpl; [reflexivity | now rewrite IH]. Qed.

(** The index-driven separators of the [forEach] loops amount to a
    join. *)
Lemma forEach_join {A : Type} (line : A -> string) (arr : list A) :
  forall (i0 len : Z) (code : string),
    len = (i0 + zlength arr)%Z ->
    forEach_from
      (fun v i code =>
         (code ++ line v) ++ (if (i <? len - 1)%Z then "," ++ nl else nl))
      i0 arr code
    = code ++ joinRows (map line arr).
Proof.
  unfold zlength.
  induction arr as [|v rest IH]; intros i0 len code Hlen.
  - simpl. now rewrite append_nil_r.
  - cbn [forEach_from]. rewrite (IH (i0 + 1)%Z len)
      by (rewrite Hlen; cbn [List.length]; lia).
    destruct rest as [|w rest'].
    + destruct (Z.ltb_spec i0 (len - 1)) as [Hlt|_];
        [cbn [List.length] in Hlen; lia|].
      cbn [map joinRows String.concat].
      now rewrite append_nil_r, append_assoc.
    + destruct (Z.ltb_spec i0 (len - 1)) as [_|Hge];
        [|cbn [List.length] in Hlen; lia].
      cbn [map joinRows String.concat].
      now rewrite !append_assoc.
Qed.

(** X18. The source-view branch of the generator writes one line per
    source view, in the stored order, joined by a comma and a line
    feed: there is a comma after every view but the last, and an empty
    list gives empty brackets. *)
Theorem emitSourceViews_joins_views
  (svs : list SourceView) (code : string) :
  emitSourceViews svs code
  = code
    ++ "// Create spritesheet using source views (irregular frames)" ++ nl
    ++ "const spriteSheet = SpriteSheet.fromImageSourceWithSourceViews({"
    ++ nl
    ++ "  image: imageSource," ++ nl
    ++ "  sourceViews: [" ++ nl
    ++ joinRows (map viewLine svs)
    ++ "  ]" ++ nl
    ++ "});" ++ nl ++ nl.
Proof.
  unfold emitSourceViews, js_forEach. cbv zeta.
  pose proof (forEach_join viewLine svs 0 (zlength svs)) as H.
  unfold viewLine in H at 1. rewrite H by lia.
  rewrite !append_assoc. reflexivity.
Qed.

Lemma emitAnimation_entry (count : Z) (anim : Animation) (i : Z)
  (code : string) :
  emitAnimation count anim i code
  = (code ++ animationEntry anim)
    ++ (if (i <? count - 1)%Z then "," ++ nl else nl).
Proof.
  unfold emitAnimation, js_forEach, animationEntry. cbv zeta.
  pose proof (forEach_join stepLine (Types.frames anim) 0
                (zlength (Types.frames anim))) as H.
  unfold stepLine in H at 1. rewrite H by lia.
  rewrite !append_assoc. reflexivity.
Qed.

(** X19. The animation definitions are written in the stored order of
    the animations, each with its steps in their order and its
    strategy, entries and steps joined by a comma and a line feed
    without a trailing comma. *)
Theorem emitAnimations_joins_entries (st : AppState) (code : string) :
  emitAnimations st code
  = code
    ++ "// Animation definitions" ++ nl
    ++ "export const " ++ animationGroupName st ++ " = {" ++ nl
    ++ joinRows (map animationEntry (animations st))
    ++ "};" ++ nl.
Proof.
  unfold emitAnimations, js_forEach. cbv zeta.
  pose proof (forEach_join animationEntry (animations st) 0
                (zlength (animations st))) as H.
  assert (Hbody :
            forEach_from (emitAnimation (zlength (animations st))) 0
              (animations st)
              ((code ++ "// Animation definitions" ++ nl)
               ++ "export const " ++ animationGroupName st ++ " = {" ++ nl)
            = ((code ++ "// Animation definitions" ++ nl)
               ++ "export const " ++ animationGroupName st ++ " = {" ++ nl)
              ++ joinRows (map animationEntry (animations st))).
  { rewrite <- H by lia. clear H.
    generalize 0%Z.
    generalize ((code ++ "// Animation definitions" ++ nl)
                ++ "export const " ++ animationGroupName st ++ " = {" ++ nl).
    generalize (zlength (animations st)).
    induction (animations st) as [|a rest IH]; intros count c i0;
      [reflexivity|].
    cbn [forEach_from]. rewrite emitAnimation_entry. apply IH. }
  rewrite Hbody. rewrite !append_assoc. reflexivity.
Qed.

Lemma generateCode_starts_with_import (st : AppState) (img : Image) :
  image st = Some img -> frames st <> [] ->
  exists rest, generateCode st = String "i" rest.
Proof.
  intros Himg Hfr.
  rewrite (generateCode_nonempty_state st img Himg Hfr).
  rewrite emitAnimations_joins_entries.
  assert (Hh : exists r, emitHeader st = String "i" r)
    by (unfold emitHeader; cbn; eexists; reflexivity).
  destruct Hh as [r Hr].
  destruct (parseMode st) as [[|]|].
  - rewrite emitGrid_append, Hr. cbn [append]. eexists; reflexivity.
  - rewrite emitSourceViews_joins_views, Hr. cbn [append].
    eexists; reflexivity.
  - rewrite Hr. cbn [append]. eexists; reflexivity.
Qed.

(** X20. The generator returns the empty text only when no image is
    loaded or there is no frame; otherwise the text is the header with
    the image path, the frame geometry of the parse mode and the
    animation definitions, in this order. *)
Theorem generateCode_empty_iff (st : AppState) :
  (generateCode st = "" <-> image st = None \/ frames st = []) /\
  (forall img,
      image st = Some img -> frames st <> [] ->
      generateCode st
      = emitHeader st
        ++ match parseMode st with
           | Some grid => emitGrid (gridConfig st) ""
           | Some sourceview => emitSourceViews (sourceViews st) ""
           | None => ""
           end
        ++ emitAnimations st "").
Proof.
  split.
  - split.
    + intros Hgen.
      destruct (image st) as [img|] eqn:Himg; [|now left].
      destruct (frames st) as [|f fs] eqn:Hfr; [now right|].
      exfalso.
      destruct (generateCode_starts_with_import st img Himg) as [r Hr].
      * rewrite Hfr. discriminate.
      * rewrite Hr in Hgen. discriminate.
    + intros [H|H].
      * now apply generateCode_no_image.
      * now apply generateCode_no_frames.
  - intros img Himg Hfr.
    rewrite (generateCode_nonempty_state st img Himg Hfr).
    rewrite emitAnimations_joins_entries.
    rewrite (emitAnimations_joins_entries st "").
    destruct (parseMode st) as [[|]|].
    + rewrite emitGrid_append. rewrite !append_assoc. reflexivity.
    + rewrite emitSourceViews_joins_views.
      rewrite (emitSourceViews_joins_views _ "").
      rewrite !append_assoc. reflexivity.
    + reflexivity.
Qed.



End CodeTextExtras.

(** ** Drawing source views *)

Section DrawingExtras.

Import Drawing Samples MoreSamples.

(** While the button is held, the moves keep the press point and the
    source views. *)
Lemma moves_keep_start (m : option ParseMode) (moves : list (Z * Z)) :
  forall ds start,
    isDrawing ds = true -> drawStart ds = Some start ->
    isSourceView m = true ->
    isDrawing
      (fold_left (fun acc p => handleCanvasMouseMove m (fst p) (snd p) acc)
         moves ds) = true /\
    drawStart
      (fold_left (fun acc p => handleCanvasMouseMove m (fst p) (snd p) acc)
         moves ds) = Some start /\
    views
      (fold_left (fun acc p => handleCanvasMouseMove m (fst p) (snd p) acc)
         moves ds) = views ds.
Proof.
  induction moves as [|p rest IH]; intros ds start Hd Hs Hm.
  - simpl. auto.
  - cbn [fold_left].
    set (ds1 := handleCanvasMouseMove m (fst p) (snd p) ds).
    assert (Hd1 : isDrawing ds1 = true)
      by (unfold ds1, handleCanvasMouseMove; rewrite Hs, Hd, Hm;
          reflexivity).
    assert (Hs1 : drawStart ds1 = Some start)
      by (unfold ds1, handleCanvasMouseMove; rewrite Hs, Hd, Hm;
          reflexivity).
    assert (Hv1 : views ds1 = views ds)
      by (unfold ds1, handleCanvasMouseMove; rewrite Hs, Hd, Hm;
          reflexivity).
    destruct (IH ds1 start Hd1 Hs1 Hm) as (H1 & H2 & H3).
    rewrite H3, Hv1. auto.
Qed.

(** X22. Drawing a source view by dragging, in the earlier revision of
    the application: only the press point and the last position count.
    The drag appends the rectangle spanned by the two points, with its
    corner at the smaller coordinates and a non-negative size, if it is
    more than 5 pixels wide and more than 5 pixels high, and otherwise
    leaves the source views as they were; either way the drawing state
    is cleared. *)
Theorem drag_appends_spanned_rectangle
  (cx0 cy0 cx1 cy1 : Z) (moves : list (Z * Z)) (ds : DrawState) :
  views (drag (Some sourceview) cx0 cy0 (moves ++ [(cx1, cy1)]) ds)
  = (if (5 <? Z.abs (cx1 - cx0)) && (5 <? Z.abs (cy1 - cy0))
     then views ds
          ++ [ {| sv_x := Z.min cx0 cx1; sv_y := Z.min cy0 cy1;
                  sv_width := Z.abs (cx1 - cx0);
                  sv_height := Z.abs (cy1 - cy0) |} ]
     else views ds) /\
  isDrawing (drag (Some sourceview) cx0 cy0 (moves ++ [(cx1, cy1)]) ds)
  = false /\
  currentRect (drag (Some sourceview) cx0 cy0 (moves ++ [(cx1, cy1)]) ds)
  = None /\
  views (drag (Some sourceview) cx0 cy0 [] ds) = views ds.
Proof.
  unfold drag. rewrite fold_left_app. cbn [fold_left fst snd].
  destruct (moves_keep_start (Some sourceview) moves
              (handleCanvasMouseDown (Some sourceview) cx0 cy0 ds)
              {| px := cx0; py := cy0 |} eq_refl eq_refl eq_refl)
    as (Hd & Hs & Hv).
  set (held := fold_left
                 (fun acc p => handleCanvasMouseMove (Some sourceview)
                                 (fst p) (snd p) acc)
                 moves
                 (handleCanvasMouseDown (Some sourceview) cx0 cy0 ds)) in *.
  unfold handleCanvasMouseMove. rewrite Hs, Hd.
  cbn [negb orb isSourceView px py].
  unfold handleCanvasMouseUp.
  cbn [currentRect isDrawing negb orb isSourceView views sv_width
         sv_height].
  rewrite Hv. cbn [views handleCanvasMouseDown isSourceView negb].
  repeat split.
  destruct ((5 <? Z.abs (cx1 - cx0)) && (5 <? Z.abs (cy1 - cy0)));
    [|reflexivity].
  do 3 f_equal.
  - destruct (Z.ltb_spec (cx1 - cx0) 0); lia.
  - destruct (Z.ltb_spec (cy1 - cy0) 0); lia.
Qed.

End DrawingExtras.

(** ** Frame indexes *)

Section FrameIndexExtras.

Import FrameResolver CodeGen App AppInvariant.
Local Open Scope Z_scope.

Lemma rowMajor_index (gc : GridConfig) (C R j : nat) (f : Frame) :
  nth_error (rowMajor gc C R) j = Some f -> index f = Z.of_nat j.
Proof.
  intros Hf.
  assert (HjR : (j < R * C)%nat).
  { rewrite <- (rowMajor_length gc C R). apply nth_error_Some. congruence. }
  assert (HC : (0 < C)%nat) by lia.
  pose proof (Nat.div_mod_eq j C) as Hdm.
  pose proof (Nat.mod_upper_bound j C ltac:(lia)) as Hmod.
  assert (Hdiv : (j / C < R)%nat)
    by (apply Nat.Div0.div_lt_upper_bound; lia).
  assert (Hj' : j = (j / C * C + j mod C)%nat) by lia.
  rewrite Hj' in Hf. rewrite rowMajor_nth in Hf by assumption.
  injection Hf as <-. cbn [index gridFrame]. lia.
Qed.

Lemma gridLoop_index (gc : GridConfig) (j : Z) (f : Frame) :
  js_index (snd (gridLoop gc)) j = Some f -> index f = j.
Proof.
  intros Hf.
  destruct (Z.le_gt_cases (columns gc) 0) as [Hc|Hc].
  - rewrite gridLoop_no_columns in Hf by exact Hc.
    unfold js_index in Hf. destruct (j <? 0); [discriminate|].
    destruct (Z.to_nat j); discriminate.
  - rewrite gridLoop_closed in Hf by lia. cbn [snd] in Hf.
    unfold js_index in Hf. destruct (Z.ltb_spec j 0); [discriminate|].
    rewrite (rowMajor_index _ _ _ _ _ Hf). lia.
Qed.

(** X23. In every state the application reaches, the frames are
    numbered densely from zero: the frame stored at position [j] has
    [index = j], in grid mode and in source view mode alike, so that the
    frame index a step stores (taken from [index]) and the position the
    preview looks up ([frames[frameIndex]]) agree. *)
Theorem frame_index_is_position
  (evs : list Event) (st : AppState) (j : Z) (f : Frame) :
  steps evs initial = Edited st ->
  js_index (frames st) j = Some f ->
  index f = j.
Proof.
  intros Hsteps Hf.
  destruct (steps_consistent evs initial consistent_initial)
    as (st' & Hsteps' & (_ & H2 & _)).
  rewrite Hsteps in Hsteps'. injection Hsteps' as <-.
  rewrite H2 in Hf. unfold derivedFrames in Hf.
  destruct (parseMode st) as [[|]|].
  - now apply (gridLoop_index (gridConfig st)).
  - rewrite parseSourceViewFrames_index in Hf.
    destruct (js_index (sourceViews st) j); [|discriminate].
    injection Hf as <-. reflexivity.
  - unfold js_index in Hf. destruct (j <? 0); [discriminate|].
    destruct (Z.to_nat j); discriminate.
Qed.

Lemma frame_index_is_position_witness :
  exists st f,
    steps AppSamples.session initial = Edited st /\
    js_index (frames st) 2 = Some f /\ index f = 2.
Proof.
  eexists. eexists. split; [vm_compute; reflexivity|].
  split; [vm_compute; reflexivity|].
  eapply (frame_index_is_position AppSamples.session).
  - vm_compute. reflexivity.
  - vm_compute. reflexivity.
Defined.

End FrameIndexExtras.
